(** * The HTTP rate-limit filter (source/common/http/filter/ratelimit.cc)

    A shallow embedding of [Http::RateLimit::Filter] and of the collaborators
    it talks to, followed by the properties of its per-request state machine,
    of descriptor evaluation and of the completion handler. *)

From Stdlib Require Import ZArith Lia.
From stdpp Require Import base option strings list gmap pretty.

Local Open Scope string_scope.
Local Open Scope list_scope.
Local Open Scope nat_scope.

(** ** Data model *)

(** [::RateLimit::DescriptorEntry] and [::RateLimit::Descriptor]. *)
Record DescriptorEntry := { key_ : string; value_ : string }.
Record Descriptor := { entries_ : list DescriptorEntry }.

(** [Http::HeaderMap]: an ordered list of (name, value) pairs. *)
Definition HeaderMap := list (string * string).

Fixpoint header_get (name : string) (headers : HeaderMap) : option string :=
  match headers with
  | [] => None
  | (k, v) :: rest => if String.eqb k name then Some v else header_get name rest
  end.

(** [headers.RequestId()]: a null entry when the header is absent. *)
Definition RequestId (headers : HeaderMap) : option string :=
  header_get "x-request-id" headers.

Definition EMPTY_STRING : string := "".

(** [::RateLimit::LimitStatus]. *)
Inductive LimitStatus := OK | Error | OverLimit.

(** Modelled from the spec: the header declaring [Filter::State] is not part
    of the sources; the spec names the initial phase [Idle], the other three
    are the ones ratelimit.cc assigns and tests. *)
Inductive State := Idle | Calling | Complete | Responded.

Module FilterHeadersStatus.
Inductive t := Continue | StopIteration.
End FilterHeadersStatus.

Module FilterDataStatus.
Inductive t := Continue | StopIterationAndBuffer.
End FilterDataStatus.

Module FilterTrailersStatus.
Inductive t := Continue | StopIteration.
End FilterTrailersStatus.

(** [Http::AccessLog::ResponseFlag]; only the flag this filter sets. *)
Inductive ResponseFlag := RateLimited.

(** [Http::Code::TooManyRequests] and [enumToInt]. *)
Inductive Code := TooManyRequests.
Definition enumToInt (c : Code) : Z :=
  match c with TooManyRequests => 429%Z end.

(** [Http::Headers::get().Status]. *)
Definition Headers_Status : string := ":status".

(** Line 23: the response template shared by every rejection. *)
Definition TOO_MANY_REQUESTS_HEADER : HeaderMap :=
  [(Headers_Status, pretty (enumToInt TooManyRequests))].

(** [Upstream::ClusterInfo]; [statsScope] is the prefix of the cluster's
    statistics scope, a counter of the scope is stored under prefix ++ name. *)
Record ClusterInfo := { statsScope : string }.

(** [Http::CodeUtility::ResponseStatInfo], fields in the order of the
    aggregate initialiser of lines 94-96 (the global store is the one store
    of the model). *)
Record ResponseStatInfo := {
  cluster_scope_ : string;
  prefix_ : string;
  response_headers_ : HeaderMap;
  internal_request_ : bool;
  request_vhost_name_ : string;
  request_vcluster_name_ : string;
  from_zone_ : string;
  to_zone_ : string;
  upstream_canary_ : bool
}.

(** The part of a [Router::RouteEntry] a rate-limit action can read. *)
Record RouteInfo := { clusterName : string }.

(** [Router::RateLimitPolicyEntry].  [populateDescriptors] returns the
    descriptors the entry pushes onto the vector it is handed. *)
Record RateLimitPolicyEntry := {
  routeKey : string;
  populateDescriptors :
    RouteInfo -> string -> HeaderMap -> string -> list Descriptor
}.

(** [Router::RateLimitPolicy]. *)
Record RateLimitPolicy := {
  getApplicableRateLimit : Z -> list RateLimitPolicyEntry
}.

Record VirtualHost := { vh_rateLimitPolicy : RateLimitPolicy }.

Record RouteEntry := {
  info : RouteInfo;
  rateLimitPolicy : RateLimitPolicy;
  virtualHost : VirtualHost
}.

Record Route := { routeEntry : option RouteEntry }.

(** [FilterConfig]: the domain, the stage and the handles of lines 18-19.
    [featureEnabled n key dflt] is the answer of the runtime snapshot to the
    [n]-th query it receives: a sampling gate need not answer the same key
    twice alike.  [cm_get] is [cm().get(name)], null when no such cluster. *)
Record FilterConfig := {
  domain : string;
  stage : Z;
  localInfo_clusterName : string;
  featureEnabled : nat -> string -> Z -> bool;
  cm_get : string -> option ClusterInfo
}.

(** The read side of [StreamDecoderFilterCallbacks]. *)
Record Callbacks := {
  route : option Route;
  downstreamAddress : string
}.

(** [::RateLimit::Client]: whether [limit] runs the completion handler before
    it returns, and with which status. *)
Record Client := {
  completes_inline : string -> list Descriptor -> string -> option LimitStatus
}.

(** Calls the filter makes on its collaborators, in program order. *)
Inductive Call :=
| limit (domain : string) (descriptors : list Descriptor) (request_id : string)
| cancel
| encodeHeaders (headers : HeaderMap) (end_stream : bool)
| setResponseFlag (flag : ResponseFlag)
| continueDecoding
| chargeResponseStat (info : ResponseStatInfo).

(** The members of [Filter] that change during a request. *)
Record Filter := {
  state_ : State;
  initiating_call_ : bool;
  cluster_ : option ClusterInfo
}.

(** Everything outside the filter that its code touches.  [stats] is the
    statistics store, [calls] the calls made so far, [rt_queries] the number
    of runtime queries answered so far, [outstanding] whether the client holds
    a limit call it has not answered, [state_log] every value assigned to
    [state_], oldest first. *)
Record World := {
  stats : gmap string nat;
  calls : list Call;
  rt_queries : nat;
  outstanding : bool;
  state_log : list State
}.

Inductive FaultKind := NullDereference | AssertFailure.

Inductive Outcome (A : Type) :=
| Done (a : A) (f : Filter) (w : World)
| Fault (e : FaultKind).
Arguments Done {A} a f w.
Arguments Fault {A} e.

(** ** The monad of filter code: state over [Filter * World], with faults *)

Definition M (A : Type) : Type := Filter -> World -> Outcome A.

#[global] Instance M_ret : MRet M := λ A a f w, Done a f w.
#[global] Instance M_bind : MBind M := λ A B k m f w,
  match m f w with
  | Done a f' w' => k a f' w'
  | Fault e => Fault e
  end.

(** Field updates. *)
Definition upd_state (s : State) (f : Filter) : Filter :=
  {| state_ := s; initiating_call_ := initiating_call_ f; cluster_ := cluster_ f |}.
Definition upd_initiating_call (b : bool) (f : Filter) : Filter :=
  {| state_ := state_ f; initiating_call_ := b; cluster_ := cluster_ f |}.
Definition upd_cluster (c : option ClusterInfo) (f : Filter) : Filter :=
  {| state_ := state_ f; initiating_call_ := initiating_call_ f; cluster_ := c |}.

Definition w_stats (m : gmap string nat) (w : World) : World :=
  {| stats := m; calls := calls w; rt_queries := rt_queries w;
     outstanding := outstanding w; state_log := state_log w |}.
Definition w_call (c : Call) (w : World) : World :=
  {| stats := stats w; calls := calls w ++ [c]; rt_queries := rt_queries w;
     outstanding := outstanding w; state_log := state_log w |}.
Definition w_queries (n : nat) (w : World) : World :=
  {| stats := stats w; calls := calls w; rt_queries := n;
     outstanding := outstanding w; state_log := state_log w |}.
Definition w_outstanding (b : bool) (w : World) : World :=
  {| stats := stats w; calls := calls w; rt_queries := rt_queries w;
     outstanding := b; state_log := state_log w |}.
Definition w_log (s : State) (w : World) : World :=
  {| stats := stats w; calls := calls w; rt_queries := rt_queries w;
     outstanding := outstanding w; state_log := state_log w ++ [s] |}.

Definition get_state : M State := λ f w, Done (state_ f) f w.
Definition get_initiating_call : M bool := λ f w, Done (initiating_call_ f) f w.

(** [state_ = s]; the assignment is also written to the log. *)
Definition set_state (s : State) : M unit := λ f w,
  Done tt (upd_state s f) (w_log s w).

Definition set_initiating_call (b : bool) : M unit := λ f w,
  Done tt (upd_initiating_call b f) w.

Definition set_cluster (c : option ClusterInfo) : M unit := λ f w,
  Done tt (upd_cluster c f) w.

(** [cluster_->...]: dereferencing the null handle is a fault. *)
Definition deref_cluster : M ClusterInfo := λ f w,
  match cluster_ f with
  | Some c => Done c f w
  | None => Fault NullDereference
  end.

Definition call (c : Call) : M unit := λ f w, Done tt f (w_call c w).

Definition set_outstanding (b : bool) : M unit := λ f w,
  Done tt f (w_outstanding b w).

Definition counter_value (name : string) (w : World) : nat :=
  default 0 (stats w !! name).

(** [scope.counter(name).inc()]. *)
Definition counter_inc (scope name : string) : M unit := λ f w,
  Done tt f
    (w_stats (<[scope +:+ name := S (counter_value (scope +:+ name) w)]> (stats w)) w).

(** [ASSERT(cond)]. *)
Definition ASSERT (cond : bool) : M unit := λ f w,
  if cond then Done tt f w else Fault AssertFailure.

Definition State_eqb (a b : State) : bool :=
  match a, b with
  | Idle, Idle | Calling, Calling | Complete, Complete | Responded, Responded => true
  | _, _ => false
  end.

Definition is_OverLimit (s : LimitStatus) : bool :=
  match s with OverLimit => true | _ => false end.

Definition string_empty (s : string) : bool :=
  match s with EmptyString => true | _ => false end.

(** [fmt::format("ratelimit.{}.http_filter_enabled", route_key)]. *)
Definition route_gate (route_key : string) : string :=
  "ratelimit." +:+ route_key +:+ ".http_filter_enabled".

(** Lines 56-58: the signal returned to the chain for a given [state_]. *)
Definition headers_status (s : State) : FilterHeadersStatus.t :=
  if State_eqb s Calling || State_eqb s Responded
  then FilterHeadersStatus.StopIteration
  else FilterHeadersStatus.Continue.

(** Line 51: the request id handed to the client. *)
Definition request_id_arg (headers : HeaderMap) : string :=
  match RequestId headers with
  | Some v => v
  | None => EMPTY_STRING
  end.

(** Lines 94-96: the [ResponseStatInfo] charged for an over-limit verdict. *)
Definition over_limit_info (cluster : ClusterInfo) : ResponseStatInfo :=
  {| cluster_scope_ := statsScope cluster; prefix_ := EMPTY_STRING;
     response_headers_ := TOO_MANY_REQUESTS_HEADER;
     internal_request_ := true;
     request_vhost_name_ := EMPTY_STRING;
     request_vcluster_name_ := EMPTY_STRING;
     from_zone_ := EMPTY_STRING; to_zone_ := EMPTY_STRING;
     upstream_canary_ := false |}.

Section FilterCode.
Variable config_ : FilterConfig.
Variable callbacks_ : Callbacks.
Variable client_ : Client.

(** [config_->runtime().snapshot().featureEnabled(key, dflt)]. *)
Definition snapshot_featureEnabled (key : string) (dflt : Z) : M bool := λ f w,
  Done (featureEnabled config_ (rt_queries w) key dflt) f
    (w_queries (S (rt_queries w)) w).

(** Lines 82-110. *)
Definition complete (status : LimitStatus) : M unit :=
  set_state Complete;;
  match status with
  | OK =>
      c ← deref_cluster; counter_inc (statsScope c) "ratelimit.ok"
  | Error =>
      c ← deref_cluster; counter_inc (statsScope c) "ratelimit.error"
  | OverLimit =>
      c ← deref_cluster; counter_inc (statsScope c) "ratelimit.over_limit";;
      c' ← deref_cluster;
      call (chargeResponseStat (over_limit_info c'))
  end;;
  enforce ← (if is_OverLimit status
             then snapshot_featureEnabled "ratelimit.http_filter_enforcing" 100%Z
             else (mret false : M bool));
  if (enforce : bool) then
    set_state Responded;;
    call (encodeHeaders TOO_MANY_REQUESTS_HEADER true);;
    call (setResponseFlag RateLimited)
  else
    initiating ← get_initiating_call;
    if negb (initiating : bool) then call continueDecoding else (mret tt : M unit).

(** [client_->limit] with this filter as the handler: the call is
    recorded; the client either runs the handler before returning or keeps
    the call outstanding. *)
Definition client_limit (dom : string) (descriptors : list Descriptor)
    (request_id : string) : M unit :=
  call (limit dom descriptors request_id);;
  match completes_inline client_ dom descriptors request_id with
  | Some status => complete status
  | None => set_outstanding true
  end.

(** [client_->cancel()].
    Modelled from the spec: the client's implementation is external; by its
    contract (section 4.3) cancel suppresses the completion of the
    outstanding call. *)
Definition client_cancel : M unit :=
  call cancel;; set_outstanding false.

(** The loop of lines 116-126 over the applicable entries. *)
Fixpoint populate_entries (entries : list RateLimitPolicyEntry)
    (descriptors : list Descriptor) (route_entry : RouteEntry)
    (headers : HeaderMap) : M (list Descriptor) :=
  match entries with
  | [] => (mret descriptors : M (list Descriptor))
  | rate_limit :: rest =>
      let route_key := routeKey rate_limit in
      skip ← (if negb (string_empty route_key)
              then enabled ← snapshot_featureEnabled (route_gate route_key) 100%Z;
                   mret (negb enabled)
              else (mret false : M bool));
      if (skip : bool) then populate_entries rest descriptors route_entry headers
      else
        populate_entries rest
          (descriptors ++
             populateDescriptors rate_limit (info route_entry)
               (localInfo_clusterName config_) headers
               (downstreamAddress callbacks_))
          route_entry headers
  end.

(** Lines 112-127. *)
Definition populateRateLimitDescriptors (rate_limit_policy : RateLimitPolicy)
    (descriptors : list Descriptor) (route_entry : RouteEntry)
    (headers : HeaderMap) : M (list Descriptor) :=
  populate_entries (getApplicableRateLimit rate_limit_policy (stage config_))
    descriptors route_entry headers.

(** Lines 38-45: the vector built from the route's policy, then from the
    virtual host's. *)
Definition collect_descriptors (route_entry : RouteEntry) (headers : HeaderMap)
    : M (list Descriptor) :=
  descriptors ← populateRateLimitDescriptors (rateLimitPolicy route_entry) []
                  route_entry headers;
  populateRateLimitDescriptors (vh_rateLimitPolicy (virtualHost route_entry))
    descriptors route_entry headers.

(** Lines 26-59. *)
Definition decodeHeaders (headers : HeaderMap) (end_stream : bool)
    : M FilterHeadersStatus.t :=
  enabled ← snapshot_featureEnabled "ratelimit.http_filter_enabled" 100%Z;
  if negb (enabled : bool) then mret FilterHeadersStatus.Continue
  else
    match route callbacks_ ≫= routeEntry with
    | Some route_entry =>
        set_cluster (cm_get config_ (clusterName (info route_entry)));;
        descriptors ← collect_descriptors route_entry headers;
        match descriptors with
        | [] => (mret tt : M unit)
        | _ :: _ =>
            set_state Calling;;
            set_initiating_call true;;
            client_limit (domain config_) descriptors (request_id_arg headers);;
            set_initiating_call false
        end
    | None => (mret tt : M unit)
    end;;
    s ← get_state;
    mret (headers_status s).

(** Lines 61-65. *)
Definition decodeData (end_stream : bool) : M FilterDataStatus.t :=
  s ← get_state;
  ASSERT (negb (State_eqb s Responded));;
  mret (if State_eqb s Calling then FilterDataStatus.StopIterationAndBuffer
        else FilterDataStatus.Continue).

(** Lines 67-71. *)
Definition decodeTrailers : M FilterTrailersStatus.t :=
  s ← get_state;
  ASSERT (negb (State_eqb s Responded));;
  mret (if State_eqb s Calling then FilterTrailersStatus.StopIteration
        else FilterTrailersStatus.Continue).

(** Lines 75-79: the observer registered by [setDecoderFilterCallbacks]. *)
Definition resetStreamCallback : M unit :=
  s ← get_state;
  if State_eqb s Calling then client_cancel else (mret tt : M unit).

End FilterCode.

(** ** The request as the chain and the client drive it *)

(** Modelled from the spec: the filter chain and the decision client are
    external (sections 4.3, 4.4 and 5).  The chain delivers the headers once
    and first, body and trailers after them, and nothing once the stream has
    been reset; the client runs the completion handler only for a call it
    still holds. *)
Inductive Input :=
| in_headers (headers : HeaderMap) (end_stream : bool)
| in_data (end_stream : bool)
| in_trailers
| in_complete (status : LimitStatus)
| in_reset.

Record System := {
  filter : Filter;
  world : World;
  headers_seen : bool;
  stream_open : bool
}.

Definition enabled (s : System) (i : Input) : bool :=
  match i with
  | in_headers _ _ => stream_open s && negb (headers_seen s)
  | in_data _ | in_trailers => stream_open s && headers_seen s
  | in_complete _ => outstanding (world s)
  | in_reset => stream_open s
  end.

Definition is_headers (i : Input) : bool :=
  match i with in_headers _ _ => true | _ => false end.
Definition is_reset (i : Input) : bool :=
  match i with in_reset => true | _ => false end.

Section Request.
Variable config_ : FilterConfig.
Variable callbacks_ : Callbacks.
Variable client_ : Client.

Definition handle (i : Input) : M unit :=
  match i with
  | in_headers headers end_stream =>
      decodeHeaders config_ callbacks_ client_ headers end_stream;; mret tt
  | in_data end_stream => decodeData end_stream;; mret tt
  | in_trailers => decodeTrailers;; mret tt
  | in_complete status => set_outstanding false;; complete config_ status
  | in_reset => resetStreamCallback
  end.

(** One input; [None] when the input is not offered in this state or the
    handler faults (the request is aborted). *)
Definition step (s : System) (i : Input) : option System :=
  if enabled s i then
    match handle i (filter s) (world s) with
    | Done _ f w =>
        Some {| filter := f; world := w;
                headers_seen := headers_seen s || is_headers i;
                stream_open := stream_open s && negb (is_reset i) |}
    | Fault _ => None
    end
  else None.

Fixpoint run (s : System) (inputs : list Input) : option System :=
  match inputs with
  | [] => Some s
  | i :: rest =>
      match step s i with
      | Some s' => run s' rest
      | None => None
      end
  end.
End Request.

(** A filter as constructed, before the chain has called it. *)
Definition initial (s : System) : Prop :=
  filter s = {| state_ := Idle; initiating_call_ := false; cluster_ := None |} ∧
  calls (world s) = [] ∧ outstanding (world s) = false ∧
  state_log (world s) = [] ∧
  headers_seen s = false ∧ stream_open s = true.

Definition reachable (config_ : FilterConfig) (callbacks_ : Callbacks)
    (client_ : Client) (s : System) : Prop :=
  ∃ s0 inputs, initial s0 ∧ run config_ callbacks_ client_ s0 inputs = Some s.

(** The order of the phases. *)
Definition rank (s : State) : nat :=
  match s with Idle => 0 | Calling => 1 | Complete => 2 | Responded => 3 end.

(** [increasing p l]: starting from phase [p], every entry of [l] is a
    strictly later phase than the one before it. *)
Fixpoint increasing (p : State) (l : list State) : bool :=
  match l with
  | [] => true
  | x :: rest => (rank p <? rank x) && increasing x rest
  end.

(** The phase after the assignments of [l], starting from phase [p]. *)
Fixpoint latest (p : State) (l : list State) : State :=
  match l with
  | [] => p
  | x :: rest => latest x rest
  end.

Definition is_continueDecoding (c : Call) : bool :=
  match c with continueDecoding => true | _ => false end.
Definition is_cancel (c : Call) : bool :=
  match c with cancel => true | _ => false end.
Definition is_encodeHeaders (c : Call) : bool :=
  match c with encodeHeaders _ _ => true | _ => false end.
Definition is_limit (c : Call) : bool :=
  match c with limit _ _ _ => true | _ => false end.
Definition is_chargeResponseStat (c : Call) : bool :=
  match c with chargeResponseStat _ => true | _ => false end.

Definition count (p : Call → bool) (l : list Call) : nat :=
  length (List.filter p l).

(** The assignments to [state_] that lead to a phase. *)
Definition phases_upto (s : State) : list State :=
  match s with
  | Idle => []
  | Calling => [Calling]
  | Complete => [Calling; Complete]
  | Responded => [Calling; Complete; Responded]
  end.

(** The counter [complete] charges for a status (lines 86-93). *)
Definition outcome_counter (status : LimitStatus) : string :=
  match status with
  | OK => "ratelimit.ok"
  | Error => "ratelimit.error"
  | OverLimit => "ratelimit.over_limit"
  end.

(** The verdict that blocks: over limit, and the enforcing gate answers yes
    to the query [complete] puts to it (lines 101-102). *)
Definition enforced (config_ : FilterConfig) (status : LimitStatus) (w : World) : bool :=
  is_OverLimit status &&
  featureEnabled config_ (rt_queries w) "ratelimit.http_filter_enforcing" 100%Z.

(** The number of times [complete] has run: each run assigns [Complete] to
    [state_] once, first thing, and nothing else assigns it. *)
Definition completions (w : World) : nat :=
  length (List.filter (State_eqb Complete) (state_log w)).

(** ** Descriptor evaluation as the spec words it *)

Section Evaluate.
Variable config_ : FilterConfig.
Variable callbacks_ : Callbacks.
Variable route_entry : RouteEntry.
Variable headers : HeaderMap.

Definition produce (rule : RateLimitPolicyEntry) : list Descriptor :=
  populateDescriptors rule (info route_entry) (localInfo_clusterName config_)
    headers (downstreamAddress callbacks_).

(** Section 4.2, steps 2 and 3: a rule with a non-empty route key is asked
    of the sampling oracle; the rules that pass append their descriptors in
    encounter order.  [n] is the number of the next oracle query. *)
Fixpoint spec_evaluate (n : nat) (rules : list RateLimitPolicyEntry)
    : list Descriptor :=
  match rules with
  | [] => []
  | rule :: rest =>
      if string_empty (routeKey rule) then produce rule ++ spec_evaluate n rest
      else if featureEnabled config_ n (route_gate (routeKey rule)) 100%Z
           then produce rule ++ spec_evaluate (S n) rest
           else spec_evaluate (S n) rest
  end.

(** The number of oracle queries an evaluation makes. *)
Definition gated (rules : list RateLimitPolicyEntry) : nat :=
  length (List.filter (λ r, negb (string_empty (routeKey r))) rules).

Definition route_rules : list RateLimitPolicyEntry :=
  getApplicableRateLimit (rateLimitPolicy route_entry) (stage config_).
Definition vhost_rules : list RateLimitPolicyEntry :=
  getApplicableRateLimit (vh_rateLimitPolicy (virtualHost route_entry)) (stage config_).

(** Section 4.4, step 4: the route's rules, then the virtual host's. *)
Definition spec_descriptors (n : nat) : list Descriptor :=
  spec_evaluate n route_rules ++ spec_evaluate (n + gated route_rules) vhost_rules.
End Evaluate.

(** ** A sample request *)

Definition sample_descriptor : Descriptor :=
  {| entries_ := [{| key_ := "descriptor_key"; value_ := "descriptor_value" |}] |}.

Definition sample_rule : RateLimitPolicyEntry :=
  {| routeKey := "my_route";
     populateDescriptors := λ _ _ _ _, [sample_descriptor] |}.

Definition sample_route_entry : RouteEntry :=
  {| info := {| clusterName := "fake_cluster" |};
     rateLimitPolicy := {| getApplicableRateLimit := λ _, [sample_rule] |};
     virtualHost :=
       {| vh_rateLimitPolicy := {| getApplicableRateLimit := λ _, [] |} |} |}.

Definition sample_callbacks : Callbacks :=
  {| route := Some {| routeEntry := Some sample_route_entry |};
     downstreamAddress := "10.0.0.1" |}.

Definition sample_cluster : ClusterInfo :=
  {| statsScope := "cluster.fake_cluster." |}.

(** A configuration whose gates all answer yes and whose registry knows
    every cluster iff [resolves]. *)
Definition sample_config (resolves : bool) : FilterConfig :=
  {| domain := "foo"; stage := 0%Z; localInfo_clusterName := "local_cluster";
     featureEnabled := λ _ _ _, true;
     cm_get := λ _, if resolves then Some sample_cluster else None |}.

(** A client that answers every call with [reply]: inline when it is
    [Some], later when it is [None]. *)
Definition sample_client (reply : option LimitStatus) : Client :=
  {| completes_inline := λ _ _ _, reply |}.

Definition new_filter : Filter :=
  {| state_ := Idle; initiating_call_ := false; cluster_ := None |}.

Definition new_world : World :=
  {| stats := ∅; calls := []; rt_queries := 0; outstanding := false;
     state_log := [] |}.

Definition new_system : System :=
  {| filter := new_filter; world := new_world; headers_seen := false;
     stream_open := true |}.

(** The filter while a call is outstanding, its cluster resolved. *)
Definition calling_filter : Filter :=
  {| state_ := Calling; initiating_call_ := false; cluster_ := Some sample_cluster |}.

(** A route without rate-limit rules, on the route or on its virtual host. *)
Definition bare_route_entry : RouteEntry :=
  {| info := {| clusterName := "fake_cluster" |};
     rateLimitPolicy := {| getApplicableRateLimit := λ _, [] |};
     virtualHost :=
       {| vh_rateLimitPolicy := {| getApplicableRateLimit := λ _, [] |} |} |}.

Definition bare_callbacks : Callbacks :=
  {| route := Some {| routeEntry := Some bare_route_entry |};
     downstreamAddress := "10.0.0.1" |}.

(** A rule whose route key is empty. *)
Definition keyless_rule : RateLimitPolicyEntry :=
  {| routeKey := "";
     populateDescriptors := λ ri _ _ _,
       [{| entries_ := [{| key_ := "to_cluster"; value_ := clusterName ri |}] |}] |}.

(** A configuration like [sample_config true], except that the gate of
    route key my_route answers no. *)
Definition gated_config : FilterConfig :=
  {| domain := "foo"; stage := 0%Z; localInfo_clusterName := "local_cluster";
     featureEnabled := λ _ key _,
       negb (String.eqb key "ratelimit.my_route.http_filter_enabled");
     cm_get := λ _, Some sample_cluster |}.

(** The invariant of a request: what holds of every reachable system. *)
Definition Inv (s : System) : Prop :=
  let st := state_ (filter s) in
  let cs := calls (world s) in
  initiating_call_ (filter s) = false ∧
  state_log (world s) = phases_upto st ∧
  (headers_seen s = false → st = Idle) ∧
  (outstanding (world s) = true → st = Calling ∧ stream_open s = true) ∧
  count is_continueDecoding cs ≤ (if State_eqb st Complete then 1 else 0) ∧
  count is_encodeHeaders cs = (if State_eqb st Responded then 1 else 0) ∧
  count is_cancel cs ≤
    (if stream_open s then 0 else if State_eqb st Calling then 1 else 0) ∧
  count is_limit cs = (if State_eqb st Idle then 0 else 1).

(** ** Further vocabulary for the properties of the hooks *)

Definition is_setResponseFlag (c : Call) : bool :=
  match c with setResponseFlag _ => true | _ => false end.

(** What the calls of a filter look like: [limit] carries the configured
    domain and at least one descriptor (lines 47-51); [encodeHeaders]
    carries the 429 template and ends the stream (lines 104-105). *)
Definition call_ok (config_ : FilterConfig) (c : Call) : Prop :=
  match c with
  | limit dom descriptors _ => dom = domain config_ ∧ descriptors ≠ []
  | encodeHeaders headers end_stream =>
      headers = TOO_MANY_REQUESTS_HEADER ∧ end_stream = true
  | _ => True
  end.

(** A second invariant of a request, about the calls made and the cluster
    handle. *)
Definition Inv2 (config_ : FilterConfig) (callbacks_ : Callbacks) (s : System) : Prop :=
  let st := state_ (filter s) in
  let cs := calls (world s) in
  (stream_open s = true → st = Calling → outstanding (world s) = true) ∧
  count is_setResponseFlag cs = count is_encodeHeaders cs ∧
  count is_chargeResponseStat cs ≤
    (if State_eqb st Idle || State_eqb st Calling then 0 else 1) ∧
  Forall (call_ok config_) cs ∧
  (st ≠ Idle →
   ∃ route_entry,
     route callbacks_ ≫= routeEntry = Some route_entry ∧
     cluster_ (filter s) = cm_get config_ (clusterName (info route_entry))).

(** A configuration whose global gate answers no. *)
Definition disabled_config : FilterConfig :=
  {| domain := "foo"; stage := 0%Z; localInfo_clusterName := "local_cluster";
     featureEnabled := λ _ key _,
       negb (String.eqb key "ratelimit.http_filter_enabled");
     cm_get := λ _, Some sample_cluster |}.

(** A configuration whose enforcing gate answers no. *)
Definition observing_config : FilterConfig :=
  {| domain := "foo"; stage := 0%Z; localInfo_clusterName := "local_cluster";
     featureEnabled := λ _ key _,
       negb (String.eqb key "ratelimit.http_filter_enforcing");
     cm_get := λ _, Some sample_cluster |}.

(** A stream whose request matches no route. *)
Definition routeless_callbacks : Callbacks :=
  {| route := None; downstreamAddress := "10.0.0.1" |}.

(** ** Basic facts about the monad and the world *)

Lemma bind_Done {A B} (m : M A) (k : A → M B) f w a f' w' :
  m f w = Done a f' w' → (m ≫= k) f w = k a f' w'.
Proof. intros H. unfold mbind, M_bind. now rewrite H. Qed.

Lemma bind_Fault {A B} (m : M A) (k : A → M B) f w e :
  m f w = Fault e → (m ≫= k) f w = Fault e.
Proof. intros H. unfold mbind, M_bind. now rewrite H. Qed.

Lemma w_queries_same w : w_queries (rt_queries w) w = w.
Proof. now destruct w. Qed.

Lemma w_queries_twice n m w : w_queries n (w_queries m w) = w_queries n w.
Proof. reflexivity. Qed.

Lemma count_app p l1 l2 : count p (l1 ++ l2) = (count p l1 + count p l2).
Proof. unfold count. now rewrite List.filter_app, length_app. Qed.

Lemma counter_value_inc scope name f w f' w' :
  counter_inc scope name f w = Done tt f' w' →
  counter_value (scope +:+ name) w' = S (counter_value (scope +:+ name) w) ∧
  ∀ other, other ≠ scope +:+ name → counter_value other w' = counter_value other w.
Proof.
  intros H. injection H as <- <-. split.
  - unfold counter_value at 1. cbn [stats w_stats]. now rewrite lookup_insert_eq.
  - intros other Hne. unfold counter_value at 1. cbn [stats w_stats].
    now rewrite lookup_insert_ne.
Qed.

Lemma increasing_snoc p l x :
  increasing p (l ++ [x]) =
  increasing p l && (rank (latest p l) <? rank x).
Proof.
  revert p. induction l as [|y l IH]; intros p.
  - cbn. now rewrite andb_true_r.
  - rewrite <- app_comm_cons. cbn [increasing latest].
    now rewrite IH, andb_assoc.
Qed.

Lemma latest_snoc p l x : latest p (l ++ [x]) = x.
Proof.
  revert p. induction l as [|y l IH]; intros p; [reflexivity|].
  rewrite <- app_comm_cons. cbn [latest]. apply IH.
Qed.

(** ** The loop of [populateRateLimitDescriptors] against the spec's wording *)

Section PopulateFacts.
Variable config_ : FilterConfig.
Variable callbacks_ : Callbacks.
Variable route_entry : RouteEntry.
Variable headers : HeaderMap.

#[local] Abbreviation populate := (populate_entries config_ callbacks_).
#[local] Abbreviation evaluate := (spec_evaluate config_ callbacks_ route_entry headers).

Lemma populate_entries_evaluate entries : ∀ descriptors f w,
  populate entries descriptors route_entry headers f w =
  Done (descriptors ++ evaluate (rt_queries w) entries) f
       (w_queries (rt_queries w + gated entries) w).
Proof.
  induction entries as [|rule rest IH]; intros descriptors f w.
  - cbn. unfold gated. cbn. now rewrite app_nil_r, Nat.add_0_r, w_queries_same.
  - cbn [populate_entries spec_evaluate]. unfold gated. cbn [List.filter].
    destruct (string_empty (routeKey rule)) eqn:Hk; cbn [negb].
    + unfold mbind at 1, M_bind, mret at 1, M_ret. rewrite IH.
      fold (produce config_ callbacks_ route_entry headers rule).
      now rewrite <- app_assoc.
    + unfold mbind at 1 2, M_bind, mret at 1, M_ret, snapshot_featureEnabled.
      destruct (featureEnabled config_ (rt_queries w)
                  (route_gate (routeKey rule)) 100%Z) eqn:Hg; cbn [negb].
      * rewrite IH. cbn [rt_queries w_queries length].
        fold (produce config_ callbacks_ route_entry headers rule).
        rewrite w_queries_twice, <- app_assoc. unfold gated. do 2 f_equal. lia.
      * rewrite IH. cbn [rt_queries w_queries length].
        rewrite w_queries_twice. unfold gated. do 2 f_equal. lia.
Qed.

Lemma collect_descriptors_evaluate f w :
  collect_descriptors config_ callbacks_ route_entry headers f w =
  Done (spec_descriptors config_ callbacks_ route_entry headers (rt_queries w)) f
       (w_queries (rt_queries w + gated (route_rules config_ route_entry)
                   + gated (vhost_rules config_ route_entry)) w).
Proof.
  unfold collect_descriptors, populateRateLimitDescriptors.
  erewrite bind_Done by apply populate_entries_evaluate.
  rewrite populate_entries_evaluate. cbn. reflexivity.
Qed.
End PopulateFacts.

(** ** What [complete] does *)

Ltac run_M :=
  cbv [mbind M_bind mret M_ret get_state get_initiating_call set_state
       set_initiating_call set_cluster deref_cluster call set_outstanding
       counter_inc ASSERT snapshot_featureEnabled is_OverLimit];
  cbn [state_ initiating_call_ cluster_ upd_state upd_initiating_call
       upd_cluster stats calls rt_queries outstanding state_log w_stats
       w_call w_queries w_outstanding w_log].

Section CompleteFacts.
Variable config_ : FilterConfig.

Lemma complete_null status f w :
  cluster_ f = None → complete config_ status f w = Fault NullDereference.
Proof.
  intros Hc. unfold complete. destruct status; run_M; now rewrite Hc.
Qed.

Lemma complete_resolved status f w c :
  cluster_ f = Some c →
  ∃ f' w',
    complete config_ status f w = Done tt f' w' ∧
    initiating_call_ f' = initiating_call_ f ∧
    cluster_ f' = cluster_ f ∧
    outstanding w' = outstanding w ∧
    stats w' =
      <[statsScope c +:+ outcome_counter status :=
          S (counter_value (statsScope c +:+ outcome_counter status) w)]> (stats w) ∧
    state_ f' = (if enforced config_ status w then Responded else Complete) ∧
    state_log w' =
      state_log w ++ (if enforced config_ status w then [Complete; Responded] else [Complete]) ∧
    calls w' =
      calls w ++
      (if is_OverLimit status then [chargeResponseStat (over_limit_info c)] else []) ++
      (if enforced config_ status w
       then [encodeHeaders TOO_MANY_REQUESTS_HEADER true; setResponseFlag RateLimited]
       else if initiating_call_ f then [] else [continueDecoding]).
Proof.
  intros Hc. unfold complete, enforced.
  destruct status, (initiating_call_ f) eqn:Hi,
    (featureEnabled config_ (rt_queries w)
       "ratelimit.http_filter_enforcing" 100%Z) eqn:Hg;
    run_M; repeat (rewrite Hc; run_M); rewrite ?Hg; run_M; rewrite ?Hi;
    cbn [negb andb];
    do 2 eexists; (split; [reflexivity|]);
    cbn [state_ initiating_call_ cluster_ upd_state upd_initiating_call
         upd_cluster stats calls rt_queries outstanding state_log w_stats
         w_call w_queries w_outstanding w_log app];
    rewrite <- ?app_assoc, ?app_nil_r; repeat split; first [reflexivity | assumption].
Qed.
End CompleteFacts.

(** ** What [decodeHeaders] and the other hooks do *)

Section HookFacts.
Variable config_ : FilterConfig.
Variable callbacks_ : Callbacks.
Variable client_ : Client.

Lemma client_limit_eq dom descriptors request_id f w :
  client_limit config_ client_ dom descriptors request_id f w =
  match completes_inline client_ dom descriptors request_id with
  | Some status =>
      complete config_ status f (w_call (limit dom descriptors request_id) w)
  | None =>
      Done tt f (w_outstanding true (w_call (limit dom descriptors request_id) w))
  end.
Proof.
  unfold client_limit. run_M.
  now destruct (completes_inline client_ dom descriptors request_id).
Qed.

Lemma decodeHeaders_eq headers end_stream f w :
  decodeHeaders config_ callbacks_ client_ headers end_stream f w =
  if featureEnabled config_ (rt_queries w) "ratelimit.http_filter_enabled" 100%Z then
    match route callbacks_ ≫= routeEntry with
    | None => Done (headers_status (state_ f)) f (w_queries (S (rt_queries w)) w)
    | Some route_entry =>
        let f1 := upd_cluster (cm_get config_ (clusterName (info route_entry))) f in
        let w1 := w_queries (S (rt_queries w)
                             + gated (route_rules config_ route_entry)
                             + gated (vhost_rules config_ route_entry)) w in
        match spec_descriptors config_ callbacks_ route_entry headers
                (S (rt_queries w)) with
        | [] => Done (headers_status (state_ f)) f1 w1
        | d :: ds =>
            match client_limit config_ client_ (domain config_) (d :: ds)
                    (request_id_arg headers)
                    (upd_initiating_call true (upd_state Calling f1))
                    (w_log Calling w1) with
            | Done _ f2 w2 =>
                Done (headers_status (state_ f2)) (upd_initiating_call false f2) w2
            | Fault e => Fault e
            end
        end
    end
  else Done FilterHeadersStatus.Continue f (w_queries (S (rt_queries w)) w).
Proof.
  unfold decodeHeaders.
  unfold mbind at 1, M_bind at 1, snapshot_featureEnabled at 1.
  destruct (featureEnabled config_ (rt_queries w)
              "ratelimit.http_filter_enabled" 100%Z); cbn [negb]; [|reflexivity].
  destruct (route callbacks_ ≫= routeEntry) as [route_entry|]; [|reflexivity].
  unfold mbind, M_bind, set_cluster.
  rewrite collect_descriptors_evaluate. cbn [rt_queries w_queries].
  rewrite w_queries_twice.
  destruct (spec_descriptors config_ callbacks_ route_entry headers
              (S (rt_queries w))) as [|d ds]; [reflexivity|].
  cbv zeta. unfold set_state, set_initiating_call, get_state, mret, M_ret.
  destruct (client_limit _ _ _ _ _ _ _) as [[] f2 w2|e]; reflexivity.
Qed.

Lemma decodeData_eq end_stream f w a f' w' :
  decodeData end_stream f w = Done a f' w' → f' = f ∧ w' = w.
Proof.
  unfold decodeData. run_M.
  destruct (negb (State_eqb (state_ f) Responded)); [|discriminate].
  now intros [= _ <- <-].
Qed.

Lemma decodeTrailers_eq f w a f' w' :
  decodeTrailers f w = Done a f' w' → f' = f ∧ w' = w.
Proof.
  unfold decodeTrailers. run_M.
  destruct (negb (State_eqb (state_ f) Responded)); [|discriminate].
  now intros [= _ <- <-].
Qed.

Lemma resetStreamCallback_eq f w :
  resetStreamCallback f w =
  if State_eqb (state_ f) Calling
  then Done tt f (w_outstanding false (w_call cancel w))
  else Done tt f w.
Proof.
  unfold resetStreamCallback, client_cancel. run_M.
  now destruct (State_eqb (state_ f) Calling).
Qed.
End HookFacts.

(** ** The invariant of a request *)

Section InvariantFacts.
Variable config_ : FilterConfig.
Variable callbacks_ : Callbacks.
Variable client_ : Client.

Lemma initial_Inv s : initial s → Inv s.
Proof.
  intros (Hf & Hc & Ho & Hl & Hh & Hs). unfold Inv.
  rewrite Hf, Hc, Ho, Hl, Hs. cbn. repeat split; try done; lia.
Qed.

Ltac world_simpl :=
  cbn [state_ initiating_call_ cluster_ upd_state upd_initiating_call
       upd_cluster stats calls rt_queries outstanding state_log w_stats
       w_call w_queries w_outstanding w_log filter world headers_seen
       stream_open] in *.

Ltac count_simpl :=
  rewrite ?count_app; cbn [count List.filter length is_continueDecoding
    is_encodeHeaders is_cancel is_limit app State_eqb phases_upto orb andb
    negb is_headers is_reset].

Lemma step_Inv s i s' :
  Inv s → step config_ callbacks_ client_ s i = Some s' → Inv s'.
Proof.
  destruct s as [f w seen open].
  intros (Hi & Hl & Hs & Ho & Hcont & Henc & Hcan & Hlim). world_simpl.
  unfold step. destruct (enabled _ i) eqn:Hen; [|discriminate].
  destruct i as [headers end_stream|end_stream| |status|]; cbn in Hen;
    cbn [handle filter world headers_seen stream_open].
  - (* headers *)
    apply andb_true_iff in Hen as [-> Hseen].
    apply negb_true_iff in Hseen. subst seen. specialize (Hs eq_refl).
    assert (Hout : outstanding w = false).
    { destruct (outstanding w); [|done]. destruct (Ho eq_refl). congruence. }
    rewrite Hs in *. cbn in Hl, Hcont, Henc, Hcan, Hlim.
    unfold mbind, M_bind, mret, M_ret. rewrite decodeHeaders_eq, Hs.
    destruct (featureEnabled _ _ _ _).
    2:{ intros [= <-]. unfold Inv. world_simpl. rewrite Hs, Hout.
        count_simpl. repeat split; try done; lia. }
    destruct (route callbacks_ ≫= routeEntry) as [route_entry|].
    2:{ intros [= <-]. unfold Inv. world_simpl. rewrite Hs, Hout.
        count_simpl. repeat split; try done; lia. }
    cbv zeta.
    destruct (spec_descriptors _ _ _ _ _) as [|d ds].
    { intros [= <-]. unfold Inv. world_simpl. rewrite Hs, Hout.
      count_simpl. repeat split; try done; lia. }
    rewrite client_limit_eq.
    destruct (completes_inline _ _ _ _) as [status|].
    + destruct (cm_get config_ (clusterName (info route_entry))) as [c|] eqn:Hcm.
      2:{ rewrite complete_null by reflexivity. discriminate. }
      destruct (complete_resolved config_ status
                  (upd_initiating_call true
                     (upd_state Calling (upd_cluster (Some c) f)))
                  (w_call (limit (domain config_) (d :: ds) (request_id_arg headers))
                     (w_log Calling
                        (w_queries
                           (S (rt_queries w)
                            + gated (route_rules config_ route_entry)
                            + gated (vhost_rules config_ route_entry)) w)))
                  c eq_refl)
        as (f2 & w2 & -> & Hi2 & _ & Ho2 & _ & Hst2 & Hl2 & Hc2).
      world_simpl. intros [= <-]. unfold Inv. world_simpl.
      rewrite Hst2, Hl2, Hc2, Ho2, Hl, Hout.
      destruct (enforced _ _ _), (is_OverLimit status); count_simpl;
        repeat split; try done; lia.
    + intros [= <-]. unfold Inv. world_simpl.
      rewrite Hl. count_simpl. repeat split; try done; lia.
  - (* data *)
    destruct (decodeData end_stream f w) as [a f' w'|] eqn:Hd;
      [|rewrite (bind_Fault _ _ _ _ _ Hd); discriminate].
    rewrite (bind_Done _ _ _ _ _ _ _ Hd).
    apply decodeData_eq in Hd as [-> ->].
    apply andb_true_iff in Hen as [-> ->].
    unfold mret, M_ret. intros [= <-]. unfold Inv. world_simpl. cbn.
    repeat split; try done; now apply Ho.
  - (* trailers *)
    destruct (decodeTrailers f w) as [a f' w'|] eqn:Hd;
      [|rewrite (bind_Fault _ _ _ _ _ Hd); discriminate].
    rewrite (bind_Done _ _ _ _ _ _ _ Hd).
    apply decodeTrailers_eq in Hd as [-> ->].
    apply andb_true_iff in Hen as [-> ->].
    unfold mret, M_ret. intros [= <-]. unfold Inv. world_simpl. cbn.
    repeat split; try done; now apply Ho.
  - (* completion *)
    destruct (Ho Hen) as [Hst ->]. rewrite Hst in *.
    destruct seen; [|now specialize (Hs eq_refl)].
    cbn in Hl, Hcont, Henc, Hcan, Hlim.
    erewrite bind_Done by reflexivity.
    destruct (cluster_ f) as [c|] eqn:Hcl.
    2:{ rewrite complete_null by assumption. discriminate. }
    destruct (complete_resolved config_ status f (w_outstanding false w) c Hcl)
      as (f2 & w2 & -> & Hi2 & _ & Ho2 & _ & Hst2 & Hl2 & Hc2).
    world_simpl. intros [= <-]. unfold Inv. world_simpl.
    rewrite Hst2, Hl2, Hc2, Ho2, Hl, Hi2, Hi.
    destruct (enforced _ _ _), (is_OverLimit status); count_simpl;
      repeat split; try done; lia.
  - (* reset *)
    subst open. rewrite resetStreamCallback_eq, orb_false_r.
    destruct (State_eqb (state_ f) Calling) eqn:Hcall.
    + intros [= <-]. unfold Inv. world_simpl. rewrite Hcall.
      destruct (state_ f); try discriminate. cbn in *. count_simpl.
      repeat split; try done; lia.
    + intros [= <-]. unfold Inv. world_simpl. rewrite Hcall. cbn.
      assert (Hout : outstanding w = false).
      { destruct (outstanding w); [|done]. destruct (Ho eq_refl) as [E _].
        rewrite E in Hcall. discriminate. }
      rewrite Hout. repeat split; try done; lia.
Qed.

Lemma run_Inv inputs : ∀ s s',
  Inv s → run config_ callbacks_ client_ s inputs = Some s' → Inv s'.
Proof.
  induction inputs as [|i rest IH]; intros s s' HI; cbn [run].
  - now intros [= <-].
  - destruct (step config_ callbacks_ client_ s i) as [s1|] eqn:Hstep;
      [|discriminate].
    apply IH. eapply step_Inv; eassumption.
Qed.

Lemma reachable_Inv s : reachable config_ callbacks_ client_ s → Inv s.
Proof.
  intros (s0 & inputs & Hinit & Hrun).
  eapply run_Inv; [apply initial_Inv|]; eassumption.
Qed.

Lemma step_rank s i s' :
  Inv s → step config_ callbacks_ client_ s i = Some s' →
  rank (state_ (filter s)) ≤ rank (state_ (filter s')).
Proof.
  destruct s as [f w seen open].
  intros (Hi & Hl & Hs & Ho & _). world_simpl.
  unfold step. destruct (enabled _ i) eqn:Hen; [|discriminate].
  destruct i as [headers end_stream|end_stream| |status|]; cbn in Hen;
    cbn [handle filter world headers_seen stream_open].
  - apply andb_true_iff in Hen as [_ Hseen]. apply negb_true_iff in Hseen.
    rewrite (Hs Hseen). cbn. lia.
  - destruct (decodeData end_stream f w) as [a f' w'|] eqn:Hd;
      [|rewrite (bind_Fault _ _ _ _ _ Hd); discriminate].
    rewrite (bind_Done _ _ _ _ _ _ _ Hd).
    apply decodeData_eq in Hd as [-> ->].
    unfold mret, M_ret. now intros [= <-].
  - destruct (decodeTrailers f w) as [a f' w'|] eqn:Hd;
      [|rewrite (bind_Fault _ _ _ _ _ Hd); discriminate].
    rewrite (bind_Done _ _ _ _ _ _ _ Hd).
    apply decodeTrailers_eq in Hd as [-> ->].
    unfold mret, M_ret. now intros [= <-].
  - destruct (Ho Hen) as [Hst _]. rewrite Hst.
    erewrite bind_Done by reflexivity.
    destruct (cluster_ f) as [c|] eqn:Hcl.
    2:{ rewrite complete_null by assumption. discriminate. }
    destruct (complete_resolved config_ status f (w_outstanding false w) c Hcl)
      as (f2 & w2 & -> & _ & _ & _ & _ & Hst2 & _).
    intros [= <-]. world_simpl. rewrite Hst2.
    destruct (enforced _ _ _); cbn; lia.
  - rewrite resetStreamCallback_eq.
    destruct (State_eqb (state_ f) Calling); now intros [= <-].
Qed.

(** Once no call is outstanding and the chain has nothing to wait for,
    no input changes the filter or the world. *)
Lemma settled_step s i s' :
  headers_seen s = true → outstanding (world s) = false →
  stream_open s = false ∨ state_ (filter s) ≠ Calling →
  step config_ callbacks_ client_ s i = Some s' →
  filter s' = filter s ∧ world s' = world s ∧ headers_seen s' = true ∧
  (stream_open s' = false ∨ state_ (filter s') ≠ Calling).
Proof.
  destruct s as [f w seen open]. world_simpl. intros -> Hout Hq.
  unfold step. destruct (enabled _ i) eqn:Hen; [|discriminate].
  destruct i as [headers end_stream|end_stream| |status|]; cbn in Hen;
    cbn [handle filter world headers_seen stream_open].
  - now rewrite andb_false_r in Hen.
  - destruct (decodeData end_stream f w) as [a f' w'|] eqn:Hd;
      [|rewrite (bind_Fault _ _ _ _ _ Hd); discriminate].
    rewrite (bind_Done _ _ _ _ _ _ _ Hd).
    apply decodeData_eq in Hd as [-> ->].
    unfold mret, M_ret. intros [= <-]. world_simpl.
    cbn [is_headers is_reset negb orb]. rewrite andb_true_r. auto.
  - destruct (decodeTrailers f w) as [a f' w'|] eqn:Hd;
      [|rewrite (bind_Fault _ _ _ _ _ Hd); discriminate].
    rewrite (bind_Done _ _ _ _ _ _ _ Hd).
    apply decodeTrailers_eq in Hd as [-> ->].
    unfold mret, M_ret. intros [= <-]. world_simpl.
    cbn [is_headers is_reset negb orb]. rewrite andb_true_r. auto.
  - congruence.
  - subst open. destruct Hq as [|Hq]; [discriminate|].
    rewrite resetStreamCallback_eq.
    destruct (State_eqb (state_ f) Calling) eqn:Hc.
    + destruct (state_ f); try discriminate. now contradict Hq.
    + intros [= <-]. world_simpl. auto.
Qed.

Lemma settled_run inputs : ∀ s s',
  headers_seen s = true → outstanding (world s) = false →
  stream_open s = false ∨ state_ (filter s) ≠ Calling →
  run config_ callbacks_ client_ s inputs = Some s' →
  filter s' = filter s ∧ world s' = world s.
Proof.
  induction inputs as [|i rest IH]; intros s s' Hh Ho Hq; cbn [run].
  - now intros [= <-].
  - destruct (step config_ callbacks_ client_ s i) as [s1|] eqn:Hstep;
      [|discriminate].
    destruct (settled_step _ _ _ Hh Ho Hq Hstep) as (Hf & Hw & Hh1 & Hq1).
    intros Hrun. rewrite <- Hf, <- Hw. apply IH; try assumption.
    now rewrite Hw.
Qed.

Lemma run_rank inputs : ∀ s s',
  Inv s → run config_ callbacks_ client_ s inputs = Some s' →
  rank (state_ (filter s)) ≤ rank (state_ (filter s')).
Proof.
  induction inputs as [|i rest IH]; intros s s' HI; cbn [run].
  - now intros [= <-].
  - destruct (step config_ callbacks_ client_ s i) as [s1|] eqn:Hstep;
      [|discriminate].
    intros Hrun. etransitivity; [eapply step_rank; eassumption|].
    apply IH; [eapply step_Inv; eassumption|assumption].
Qed.

Lemma reachable_step s i s' :
  reachable config_ callbacks_ client_ s →
  step config_ callbacks_ client_ s i = Some s' →
  reachable config_ callbacks_ client_ s'.
Proof.
  intros (s0 & inputs & Hinit & Hrun) Hstep.
  exists s0, (inputs ++ [i]). split; [assumption|].
  clear Hinit. revert s0 Hrun.
  induction inputs as [|j rest IH]; intros s0; cbn [run app].
  - intros [= ->]. now rewrite Hstep.
  - destruct (step config_ callbacks_ client_ s0 j); [apply IH|discriminate].
Qed.
End InvariantFacts.

(** ** The completion handler *)

Lemma counter_after_complete config_ status f w c f' w' :
  cluster_ f = Some c →
  complete config_ status f w = Done tt f' w' →
  counter_value (statsScope c +:+ outcome_counter status) w' =
    S (counter_value (statsScope c +:+ outcome_counter status) w) ∧
  ∀ other, other ≠ statsScope c +:+ outcome_counter status →
    counter_value other w' = counter_value other w.
Proof.
  intros Hc Hrun.
  destruct (complete_resolved config_ status f w c Hc)
    as (f2 & w2 & Heq & _ & _ & _ & Hstats & _).
  rewrite Heq in Hrun. injection Hrun as <- <-.
  unfold counter_value at 1 3. rewrite Hstats. split.
  - now rewrite lookup_insert_eq.
  - intros other Hne. now rewrite lookup_insert_ne.
Qed.

(** C1: when the completion reports [OverLimit] for a request whose cluster
    is resolved and the gate ratelimit.http_filter_enforcing answers yes,
    [complete] returns with the phase [Responded]; the calls it makes are,
    in order, one charge of the response-code statistics, one
    [encodeHeaders] of the 429 template (the status header alone) that ends
    the stream, and the rate-limited flag; the cluster counter
    ratelimit.over_limit grows by exactly one and no other counter changes;
    the chain is not resumed, the header hook's check of the phase answers
    StopIteration, and no request that has reached [Responded] has ever had
    its chain resumed by the filter. *)
Theorem complete_over_limit_enforced config_ f w c :
  cluster_ f = Some c →
  featureEnabled config_ (rt_queries w) "ratelimit.http_filter_enforcing" 100%Z = true →
  ∃ f' w',
    complete config_ OverLimit f w = Done tt f' w' ∧
    state_ f' = Responded ∧
    calls w' =
      calls w ++ [chargeResponseStat (over_limit_info c);
                  encodeHeaders [(":status", "429")] true;
                  setResponseFlag RateLimited] ∧
    counter_value (statsScope c +:+ "ratelimit.over_limit") w' =
      S (counter_value (statsScope c +:+ "ratelimit.over_limit") w) ∧
    (∀ other, other ≠ statsScope c +:+ "ratelimit.over_limit" →
       counter_value other w' = counter_value other w) ∧
    count is_continueDecoding (calls w') = count is_continueDecoding (calls w) ∧
    headers_status (state_ f') = FilterHeadersStatus.StopIteration ∧
    (∀ callbacks_ client_ s,
       reachable config_ callbacks_ client_ s →
       state_ (filter s) = Responded →
       count is_continueDecoding (calls (world s)) = 0).
Proof.
  intros Hc Hgate.
  destruct (complete_resolved config_ OverLimit f w c Hc)
    as (f' & w' & Heq & _ & _ & _ & _ & Hst & _ & Hcalls).
  unfold enforced in Hst, Hcalls. rewrite Hgate in Hst, Hcalls.
  cbn [is_OverLimit andb app] in Hst, Hcalls.
  exists f', w'. split; [exact Heq|]. split; [exact Hst|].
  split; [exact Hcalls|].
  destruct (counter_after_complete _ _ _ _ _ _ _ Hc Heq) as [Hinc Hother].
  split; [exact Hinc|]. split; [exact Hother|].
  split; [rewrite Hcalls, count_app; cbn; lia|].
  split; [now rewrite Hst|].
  intros callbacks_ client_ s Hreach Hresp.
  destruct (reachable_Inv _ _ _ _ Hreach) as (_ & _ & _ & _ & Hcont & _).
  rewrite Hresp in Hcont. cbn in Hcont. lia.
Qed.

Lemma complete_over_limit_enforced_witness :
  ∃ f' w',
    complete (sample_config true) OverLimit calling_filter new_world = Done tt f' w' ∧
    state_ f' = Responded ∧
    count is_encodeHeaders (calls w') = 1.
Proof.
  destruct (complete_over_limit_enforced (sample_config true) calling_filter
              new_world sample_cluster eq_refl eq_refl)
    as (f' & w' & Heq & Hst & Hcalls & _).
  exists f', w'. split; [exact Heq|]. split; [exact Hst|].
  rewrite Hcalls. reflexivity.
Defined.

(** C2: when the completion reports [Error] for a request whose cluster is
    resolved, [complete] returns with the phase [Complete] whatever the
    enforcing gate would answer (it is not consulted); it sends no response
    and charges no response-code statistics: the only call it makes is
    [continueDecoding], and that exactly when it runs after the issuing call
    has returned ([initiating_call_] is false); the cluster counter
    ratelimit.error grows by exactly one and no other counter changes; the
    header hook's check of the phase answers Continue. *)
Theorem complete_error_fails_open config_ f w c :
  cluster_ f = Some c →
  ∃ f' w',
    complete config_ Error f w = Done tt f' w' ∧
    state_ f' = Complete ∧
    rt_queries w' = rt_queries w ∧
    calls w' = calls w ++ (if initiating_call_ f then [] else [continueDecoding]) ∧
    count is_encodeHeaders (calls w') = count is_encodeHeaders (calls w) ∧
    count is_chargeResponseStat (calls w') = count is_chargeResponseStat (calls w) ∧
    counter_value (statsScope c +:+ "ratelimit.error") w' =
      S (counter_value (statsScope c +:+ "ratelimit.error") w) ∧
    (∀ other, other ≠ statsScope c +:+ "ratelimit.error" →
       counter_value other w' = counter_value other w) ∧
    headers_status (state_ f') = FilterHeadersStatus.Continue.
Proof.
  intros Hc.
  destruct (complete_resolved config_ Error f w c Hc)
    as (f' & w' & Heq & _ & _ & _ & _ & Hst & _ & Hcalls).
  cbn [enforced is_OverLimit andb app] in Hst, Hcalls.
  exists f', w'. split; [exact Heq|]. split; [exact Hst|].
  split.
  { revert Heq. unfold complete. run_M. rewrite Hc. run_M.
    destruct (initiating_call_ f); cbn; now intros [= _ <-]. }
  split; [exact Hcalls|].
  destruct (counter_after_complete _ _ _ _ _ _ _ Hc Heq) as [Hinc Hother].
  rewrite Hcalls, !count_app, Hst.
  destruct (initiating_call_ f); cbn; repeat split; auto.
Qed.

Lemma complete_error_fails_open_witness :
  ∃ f' w',
    complete (sample_config true) Error calling_filter new_world = Done tt f' w' ∧
    state_ f' = Complete ∧ calls w' = [continueDecoding].
Proof.
  destruct (complete_error_fails_open (sample_config true) calling_filter
              new_world sample_cluster eq_refl)
    as (f' & w' & Heq & Hst & _ & Hcalls & _).
  exists f', w'. split; [exact Heq|]. split; [exact Hst|]. exact Hcalls.
Defined.

(** C7: the code at a cluster the registry does not know.  [decodeHeaders]
    stores the null handle and issues the call; when the verdict arrives,
    [complete] dereferences the handle before anything else, whatever the
    status: the handler faults, no counter is charged, the chain is not
    resumed and no response is sent. *)
Theorem complete_unresolved_cluster_faults :
  (∃ f1 w1,
     decodeHeaders (sample_config false) sample_callbacks (sample_client None)
       [] false new_filter new_world = Done FilterHeadersStatus.StopIteration f1 w1 ∧
     cluster_ f1 = None ∧ state_ f1 = Calling ∧
     complete (sample_config false) OK f1 w1 = Fault NullDereference ∧
     complete (sample_config false) Error f1 w1 = Fault NullDereference ∧
     complete (sample_config false) OverLimit f1 w1 = Fault NullDereference) ∧
  decodeHeaders (sample_config false) sample_callbacks (sample_client (Some OK))
    [] false new_filter new_world = Fault NullDereference.
Proof.
  split.
  - do 2 eexists. split; [vm_compute; reflexivity|].
    repeat split; apply complete_null; reflexivity.
  - vm_compute. reflexivity.
Qed.

(** ** The header hook *)

(** C4: when the descriptors built from the route's rules and then the
    virtual host's are empty, [decodeHeaders] on a filter in phase [Idle]
    returns Continue, makes no call at all (so [limit] is not invoked and no
    call becomes outstanding), assigns nothing to [state_] and leaves the
    phase [Idle]. *)
Theorem empty_descriptors_never_call config_ callbacks_ client_ headers
    end_stream f w route_entry f1 w1 :
  state_ f = Idle →
  route callbacks_ ≫= routeEntry = Some route_entry →
  collect_descriptors config_ callbacks_ route_entry headers
    (upd_cluster (cm_get config_ (clusterName (info route_entry))) f)
    (w_queries (S (rt_queries w)) w) = Done [] f1 w1 →
  ∃ f' w',
    decodeHeaders config_ callbacks_ client_ headers end_stream f w =
      Done FilterHeadersStatus.Continue f' w' ∧
    state_ f' = Idle ∧
    calls w' = calls w ∧
    count is_limit (calls w') = count is_limit (calls w) ∧
    outstanding w' = outstanding w ∧
    state_log w' = state_log w.
Proof.
  intros Hidle Hroute Hcollect.
  rewrite collect_descriptors_evaluate in Hcollect.
  cbn [rt_queries w_queries] in Hcollect. injection Hcollect as Hds _ _.
  rewrite decodeHeaders_eq, Hroute, Hidle. cbv zeta. rewrite Hds.
  destruct (featureEnabled _ _ _ _); do 2 eexists;
    (split; [reflexivity|]); cbn; rewrite ?Hidle; repeat split; reflexivity.
Qed.

Lemma empty_descriptors_never_call_witness :
  ∃ f' w',
    decodeHeaders (sample_config true) bare_callbacks (sample_client (Some OverLimit))
      [] false new_filter new_world = Done FilterHeadersStatus.Continue f' w' ∧
    state_ f' = Idle ∧ calls w' = [].
Proof.
  destruct (empty_descriptors_never_call (sample_config true) bare_callbacks
              (sample_client (Some OverLimit)) [] false new_filter new_world
              bare_route_entry
              (upd_cluster (Some sample_cluster) new_filter)
              (w_queries 1 new_world) eq_refl eq_refl eq_refl)
    as (f' & w' & Heq & Hst & Hcalls & _).
  exists f', w'. split; [exact Heq|]. split; [exact Hst|]. exact Hcalls.
Defined.

(** C3: take a fresh request for which the client runs the completion
    handler inside [limit] and the verdict does not block (it is not an
    enforced [OverLimit]).  Then [decodeHeaders] returns Continue with the
    phase [Complete]; the one call made is [limit]: [complete], which ran
    with [initiating_call_] set, did not call [continueDecoding]; no call is
    left outstanding, so no completion can follow, and whatever the chain
    delivers afterwards changes neither the filter nor the world: the chain
    is not paused and the filter never resumes it. *)
Theorem inline_continue_is_not_resumed config_ callbacks_ client_ headers
    end_stream s route_entry c ds f1 w1 status :
  initial s →
  featureEnabled config_ (rt_queries (world s)) "ratelimit.http_filter_enabled" 100%Z = true →
  route callbacks_ ≫= routeEntry = Some route_entry →
  cm_get config_ (clusterName (info route_entry)) = Some c →
  collect_descriptors config_ callbacks_ route_entry headers
    (upd_cluster (Some c) (filter s))
    (w_queries (S (rt_queries (world s))) (world s)) = Done ds f1 w1 →
  ds ≠ [] →
  completes_inline client_ (domain config_) ds (request_id_arg headers) = Some status →
  enforced config_ status w1 = false →
  ∃ f' w',
    decodeHeaders config_ callbacks_ client_ headers end_stream (filter s) (world s) =
      Done FilterHeadersStatus.Continue f' w' ∧
    state_ f' = Complete ∧
    initiating_call_ f' = false ∧
    outstanding w' = false ∧
    count is_limit (calls w') = 1 ∧
    count is_continueDecoding (calls w') = 0 ∧
    ∀ inputs s',
      run config_ callbacks_ client_
        {| filter := f'; world := w'; headers_seen := true; stream_open := true |}
        inputs = Some s' →
      filter s' = f' ∧ world s' = w'.
Proof.
  intros (Hf & Hc0 & Ho0 & Hl0 & _ & _) Hgate Hroute Hcm Hcollect Hne Hinline Henf.
  rewrite collect_descriptors_evaluate in Hcollect.
  injection Hcollect as Hds _ Hw1.
  assert (Hds' : ds = spec_descriptors config_ callbacks_ route_entry headers
                        (S (rt_queries (world s))))
    by (rewrite <- Hds; reflexivity).
  assert (Hw1' : w1 = w_queries (S (rt_queries (world s))
                                 + gated (route_rules config_ route_entry)
                                 + gated (vhost_rules config_ route_entry)) (world s))
    by (rewrite <- Hw1; reflexivity).
  rewrite decodeHeaders_eq, Hgate, Hroute. cbv zeta.
  rewrite Hcm, <- Hds', <- Hw1'.
  destruct ds as [|d ds]; [congruence|].
  rewrite client_limit_eq, Hinline.
  destruct (complete_resolved config_ status
              (upd_initiating_call true
                 (upd_state Calling (upd_cluster (Some c) (filter s))))
              (w_call (limit (domain config_) (d :: ds) (request_id_arg headers))
                 (w_log Calling w1))
              c eq_refl)
    as (f2 & w2 & -> & Hi2 & _ & Ho2 & _ & Hst2 & _ & Hc2).
  change (enforced config_ status (w_call _ (w_log Calling w1)))
    with (enforced config_ status w1) in Hst2, Hc2.
  rewrite Henf in Hst2, Hc2. cbn [initiating_call_ upd_initiating_call] in Hc2.
  assert (Hcalls1 : calls w1 = []) by (rewrite Hw1'; exact Hc0).
  assert (Hout1 : outstanding w1 = false) by (rewrite Hw1'; exact Ho0).
  cbn [calls outstanding w_call w_log] in Hc2, Ho2.
  rewrite Hcalls1 in Hc2. rewrite Hout1 in Ho2.
  exists (upd_initiating_call false f2), w2.
  split; [now rewrite Hst2|]. split; [exact Hst2|]. split; [reflexivity|].
  split; [exact Ho2|].
  split; [rewrite Hc2; destruct (is_OverLimit status); reflexivity|].
  split; [rewrite Hc2; destruct (is_OverLimit status); reflexivity|].
  intros inputs s' Hrun.
  apply (settled_run config_ callbacks_ client_ inputs _ s') in Hrun;
    [exact Hrun|reflexivity|exact Ho2|].
  right. cbn. rewrite Hst2. discriminate.
Qed.

Lemma inline_continue_is_not_resumed_witness :
  ∃ f' w',
    decodeHeaders (sample_config true) sample_callbacks (sample_client (Some OK))
      [] false new_filter new_world = Done FilterHeadersStatus.Continue f' w' ∧
    state_ f' = Complete ∧
    count is_continueDecoding (calls w') = 0.
Proof.
  destruct (inline_continue_is_not_resumed (sample_config true) sample_callbacks
              (sample_client (Some OK)) [] false new_system sample_route_entry
              sample_cluster [sample_descriptor]
              (upd_cluster (Some sample_cluster) new_filter)
              (w_queries 2 new_world) OK)
    as (f' & w' & Heq & Hst & _ & _ & _ & Hcont & _);
    [repeat split; reflexivity|reflexivity|reflexivity|reflexivity
    |reflexivity|discriminate|reflexivity|reflexivity|].
  exists f', w'. split; [exact Heq|]. split; [exact Hst|]. exact Hcont.
Defined.

(** ** The phases of a request *)

Lemma phases_upto_increasing st :
  increasing Idle (phases_upto st) = true ∧ latest Idle (phases_upto st) = st.
Proof. destruct st; split; reflexivity. Qed.

Lemma phases_upto_extends a b :
  rank a ≤ rank b → ∃ added, phases_upto b = phases_upto a ++ added.
Proof.
  destruct a, b; cbn [rank]; intros H; try lia; cbn [phases_upto];
    eexists; (reflexivity || (rewrite app_nil_r; reflexivity)).
Qed.

(** C5: along every request, whatever the chain and the client deliver
    (headers, body, trailers, a completion, a reset), the phase after is the
    phase before or a later one in the order Idle, Calling, Complete,
    Responded; the assignments to [state_] made so far, those inside a hook
    included, form a strictly increasing sequence that ends in the current
    phase, and later inputs only extend it: no phase is entered twice and
    none is left for an earlier one. *)
Theorem phase_is_monotone config_ callbacks_ client_ s inputs s' :
  reachable config_ callbacks_ client_ s →
  run config_ callbacks_ client_ s inputs = Some s' →
  rank (state_ (filter s)) ≤ rank (state_ (filter s')) ∧
  increasing Idle (state_log (world s')) = true ∧
  latest Idle (state_log (world s')) = state_ (filter s') ∧
  ∃ added, state_log (world s') = state_log (world s) ++ added.
Proof.
  intros Hreach Hrun.
  pose proof (reachable_Inv _ _ _ _ Hreach) as HI.
  pose proof (run_Inv _ _ _ _ _ _ HI Hrun) as HI'.
  pose proof (run_rank _ _ _ _ _ _ HI Hrun) as Hrank.
  destruct HI as (_ & Hl & _). destruct HI' as (_ & Hl' & _).
  rewrite Hl, Hl'. split; [exact Hrank|].
  destruct (phases_upto_increasing (state_ (filter s'))) as [Hinc Hlast].
  split; [exact Hinc|]. split; [exact Hlast|].
  now apply phases_upto_extends.
Qed.

Lemma phase_is_monotone_witness :
  ∃ s s',
    run (sample_config true) sample_callbacks (sample_client None) new_system
      [in_headers [] false] = Some s ∧
    run (sample_config true) sample_callbacks (sample_client None) s
      [in_data false; in_complete OverLimit; in_reset] = Some s' ∧
    state_ (filter s) = Calling ∧ state_ (filter s') = Responded ∧
    increasing Idle (state_log (world s')) = true.
Proof.
  eexists. eexists.
  split; [vm_compute; reflexivity|].
  split; [vm_compute; reflexivity|].
  split; [reflexivity|]. split; [reflexivity|].
  refine (proj1 (proj2 (phase_is_monotone (sample_config true) sample_callbacks
            (sample_client None) _ [in_data false; in_complete OverLimit; in_reset]
            _ _ _))).
  - exists new_system, [in_headers [] false].
    split; [repeat split; reflexivity|vm_compute; reflexivity].
  - vm_compute. reflexivity.
Defined.

(** ** Early termination *)

(** C6: when the stream is reset during a request, the filter itself is
    left as it is.  If the phase is [Calling], the observer calls [cancel]:
    that is the one call it makes and the only [cancel] of the request, and
    it leaves no call outstanding.  If the phase is not [Calling], the
    world is unchanged and the request has no [cancel] at all.  In both
    cases no completion can be delivered afterwards, and nothing that is
    delivered changes the filter or the world. *)
Theorem reset_cancels_outstanding_call config_ callbacks_ client_ s s' :
  reachable config_ callbacks_ client_ s →
  step config_ callbacks_ client_ s in_reset = Some s' →
  filter s' = filter s ∧
  (state_ (filter s) = Calling →
     calls (world s') = calls (world s) ++ [cancel] ∧
     count is_cancel (calls (world s')) = 1) ∧
  (state_ (filter s) ≠ Calling →
     world s' = world s ∧ count is_cancel (calls (world s')) = 0) ∧
  outstanding (world s') = false ∧
  (∀ status, enabled s' (in_complete status) = false) ∧
  (∀ inputs s'',
     run config_ callbacks_ client_ s' inputs = Some s'' →
     filter s'' = filter s' ∧ world s'' = world s').
Proof.
  intros Hreach Hstep.
  pose proof (reachable_Inv _ _ _ _ Hreach) as HI.
  pose proof (step_Inv _ _ _ _ _ _ HI Hstep) as HI'.
  destruct HI as (_ & _ & Hs & Ho & _ & _ & Hcan & _).
  revert Hstep HI'. unfold step.
  destruct (enabled s in_reset) eqn:Hen; [|discriminate].
  cbn in Hen. rewrite Hen in Hcan. cbn [handle].
  rewrite resetStreamCallback_eq.
  assert (Hseen : headers_seen s = true ∨ state_ (filter s) = Idle).
  { destruct (headers_seen s); [now left|right; now apply Hs]. }
  destruct (State_eqb (state_ (filter s)) Calling) eqn:Hcall.
  - intros [= <-] HI'. cbn [filter world outstanding w_outstanding calls w_call enabled].
    assert (Hst : state_ (filter s) = Calling)
      by (destruct (state_ (filter s)); try discriminate; reflexivity).
    split; [reflexivity|]. split.
    { intros _. split; [reflexivity|]. rewrite count_app. cbn. lia. }
    split; [intros Hne; now contradict Hne|].
    split; [reflexivity|]. split; [reflexivity|].
    intros inputs s'' Hrun.
    apply (settled_run config_ callbacks_ client_ inputs _ s'') in Hrun.
    + exact Hrun.
    + cbn. destruct Hseen as [->|Hidle]; [reflexivity|congruence].
    + reflexivity.
    + left. cbn. now rewrite andb_false_r.
  - intros [= <-] HI'. cbn [filter world enabled].
    assert (Hout : outstanding (world s) = false).
    { destruct (outstanding (world s)); [|reflexivity].
      destruct (Ho eq_refl) as [E _]. rewrite E in Hcall. discriminate. }
    split; [reflexivity|]. split.
    { intros Hst. rewrite Hst in Hcall. discriminate. }
    split; [intros _; split; [reflexivity|lia]|].
    split; [exact Hout|]. split; [intros _; exact Hout|].
    intros inputs s'' Hrun. destruct inputs as [|i rest].
    { cbn in Hrun. now injection Hrun as <-. }
    cbn [run] in Hrun. unfold step at 1 in Hrun.
    destruct i; cbn [enabled stream_open world headers_seen] in Hrun;
      rewrite ?Hout, ?andb_false_r in Hrun; cbn in Hrun; discriminate.
Qed.

Lemma reset_cancels_outstanding_call_witness :
  ∃ s s',
    run (sample_config true) sample_callbacks (sample_client None) new_system
      [in_headers [] false] = Some s ∧
    step (sample_config true) sample_callbacks (sample_client None) s in_reset = Some s' ∧
    state_ (filter s) = Calling ∧
    count is_cancel (calls (world s')) = 1.
Proof.
  eexists. eexists.
  split; [vm_compute; reflexivity|].
  split; [vm_compute; reflexivity|].
  split; [reflexivity|].
  refine (proj2 (proj1 (proj2 (reset_cancels_outstanding_call (sample_config true)
            sample_callbacks (sample_client None) _ _ _ _)) _)).
  - exists new_system, [in_headers [] false].
    split; [repeat split; reflexivity|vm_compute; reflexivity].
  - vm_compute. reflexivity.
  - reflexivity.
Defined.

(** ** Descriptor evaluation *)

Section EvaluateFacts.
Variable config_ : FilterConfig.
Variable callbacks_ : Callbacks.
Variable route_entry : RouteEntry.
Variable headers : HeaderMap.

#[local] Abbreviation evaluate :=
  (spec_evaluate config_ callbacks_ route_entry headers).

Lemma gated_app l1 l2 : gated (l1 ++ l2) = gated l1 + gated l2.
Proof. unfold gated. now rewrite List.filter_app, length_app. Qed.

Lemma spec_evaluate_app l1 : ∀ n l2,
  evaluate n (l1 ++ l2) = evaluate n l1 ++ evaluate (n + gated l1) l2.
Proof.
  induction l1 as [|rule rest IH]; intros n l2.
  - cbn. now rewrite Nat.add_0_r.
  - rewrite <- app_comm_cons. cbn [spec_evaluate]. unfold gated.
    cbn [List.filter].
    destruct (string_empty (routeKey rule)); cbn [negb].
    + now rewrite IH, app_assoc.
    + fold (gated rest).
      replace (n + length (rule :: List.filter _ rest)) with (S n + gated rest)
        by (unfold gated; cbn [length]; lia).
      destruct (featureEnabled config_ n (route_gate (routeKey rule)) 100%Z);
        now rewrite IH, ?app_assoc.
Qed.
End EvaluateFacts.

Lemma spec_evaluate_agree config1 config2 callbacks1 callbacks2 route_entry headers
    rules : ∀ n1 n2,
  localInfo_clusterName config1 = localInfo_clusterName config2 →
  downstreamAddress callbacks1 = downstreamAddress callbacks2 →
  (∀ k key dflt,
     featureEnabled config1 (n1 + k) key dflt = featureEnabled config2 (n2 + k) key dflt) →
  spec_evaluate config1 callbacks1 route_entry headers n1 rules =
  spec_evaluate config2 callbacks2 route_entry headers n2 rules.
Proof.
  induction rules as [|rule rest IH]; intros n1 n2 Hlocal Haddr Hgates; [reflexivity|].
  cbn [spec_evaluate]. unfold produce. rewrite Hlocal, Haddr.
  destruct (string_empty (routeKey rule)).
  - f_equal. now apply IH.
  - pose proof (Hgates 0 (route_gate (routeKey rule)) 100%Z) as H0.
    rewrite !Nat.add_0_r in H0. rewrite H0.
    assert (Hnext : spec_evaluate config1 callbacks1 route_entry headers (S n1) rest =
                    spec_evaluate config2 callbacks2 route_entry headers (S n2) rest).
    { apply IH; try assumption. intros k key dflt.
      specialize (Hgates (S k) key dflt).
      now rewrite !Nat.add_succ_r in Hgates. }
    now rewrite Hnext.
Qed.

(** C8: in the loop of [populateRateLimitDescriptors] over the entries
    [pre ++ rule :: post], let [d1] be the descriptors after [pre].  If the
    route key of [rule] is not empty and its gate
    ratelimit.<route key>.http_filter_enabled answers no, the loop goes on
    over [post] from [d1]: the outcome is what [pre] built followed by what
    [post] builds on its own, [rule] adds no descriptor and its
    [populateDescriptors] does not occur in the outcome; the one trace of
    [rule] is the query put to its gate.  If the route key is empty, no gate
    is queried and the descriptors of [rule] are appended to [d1]. *)
Theorem disabled_route_gate_skips_rule config_ callbacks_ pre rule post
    descriptors route_entry headers f w d1 f1 w1 :
  populate_entries config_ callbacks_ pre descriptors route_entry headers f w =
    Done d1 f1 w1 →
  (string_empty (routeKey rule) = false →
   featureEnabled config_ (rt_queries w1)
     ("ratelimit." +:+ routeKey rule +:+ ".http_filter_enabled") 100%Z = false →
   populate_entries config_ callbacks_ (pre ++ rule :: post) descriptors
     route_entry headers f w =
   populate_entries config_ callbacks_ post d1 route_entry headers f1
     (w_queries (S (rt_queries w1)) w1) ∧
   ∃ d2 w2,
     populate_entries config_ callbacks_ post [] route_entry headers f1
       (w_queries (S (rt_queries w1)) w1) = Done d2 f1 w2 ∧
     populate_entries config_ callbacks_ (pre ++ rule :: post) descriptors
       route_entry headers f w = Done (d1 ++ d2) f1 w2) ∧
  (string_empty (routeKey rule) = true →
   populate_entries config_ callbacks_ (pre ++ rule :: post) descriptors
     route_entry headers f w =
   populate_entries config_ callbacks_ post
     (d1 ++ populateDescriptors rule (info route_entry)
              (localInfo_clusterName config_) headers (downstreamAddress callbacks_))
     route_entry headers f1 w1).
Proof.
  intros Hpre. rewrite populate_entries_evaluate in Hpre.
  injection Hpre as Hd1 Hf1 Hw1. subst d1 f1 w1.
  cbn [rt_queries w_queries]. split.
  - intros Hkey Hgate. fold (route_gate (routeKey rule)) in Hgate.
    rewrite !populate_entries_evaluate. cbn [rt_queries w_queries].
    rewrite spec_evaluate_app, gated_app. cbn [spec_evaluate].
    rewrite Hkey, Hgate, !w_queries_twice, app_nil_l.
    assert (Hg : gated (rule :: post) = S (gated post))
      by (unfold gated; cbn [List.filter]; now rewrite Hkey).
    rewrite Hg. split.
    + rewrite app_assoc. do 2 f_equal. lia.
    + do 2 eexists. split; [reflexivity|].
      rewrite app_assoc. do 2 f_equal. lia.
  - intros Hkey.
    rewrite !populate_entries_evaluate. cbn [rt_queries w_queries].
    rewrite spec_evaluate_app, gated_app. cbn [spec_evaluate].
    rewrite Hkey, !w_queries_twice.
    assert (Hg : gated (rule :: post) = gated post)
      by (unfold gated; cbn [List.filter]; now rewrite Hkey).
    rewrite Hg, <- !app_assoc, Nat.add_assoc. reflexivity.
Qed.

Lemma disabled_route_gate_skips_rule_witness :
  populate_entries gated_config sample_callbacks
    ([keyless_rule] ++ sample_rule :: [keyless_rule]) [] sample_route_entry []
    new_filter new_world =
  Done ([{| entries_ := [{| key_ := "to_cluster"; value_ := "fake_cluster" |}] |}] ++
        [{| entries_ := [{| key_ := "to_cluster"; value_ := "fake_cluster" |}] |}])
       new_filter (w_queries 1 new_world).
Proof.
  destruct (proj1 (disabled_route_gate_skips_rule gated_config sample_callbacks
              [keyless_rule] sample_rule [keyless_rule] [] sample_route_entry []
              new_filter new_world _ new_filter new_world eq_refl)
              eq_refl eq_refl) as (_ & d2 & w2 & Hpost & Hall).
  rewrite Hall. injection Hpost as <- <-. reflexivity.
Defined.

(** C9: the descriptors [decodeHeaders] builds are a function of the rules,
    the stage, the route, the headers, the local cluster name, the
    downstream address and the answers of the sampling oracle, in this
    order: first what the route's rules give, then what the virtual host's
    rules give, each the concatenation, rule by rule in encounter order, of
    the descriptors of the rules that pass their gate.  Two evaluations that
    agree on these inputs, in whatever filter state, with whatever
    statistics and calls so far, build the same sequence. *)
Theorem descriptor_evaluation_is_deterministic config1 config2 callbacks1 callbacks2
    route_entry headers f1 w1 f2 w2 :
  stage config1 = stage config2 →
  localInfo_clusterName config1 = localInfo_clusterName config2 →
  downstreamAddress callbacks1 = downstreamAddress callbacks2 →
  (∀ k key dflt,
     featureEnabled config1 (rt_queries w1 + k) key dflt =
     featureEnabled config2 (rt_queries w2 + k) key dflt) →
  ∃ ds_route ds_vhost wr1 wv1 wr2 wv2,
    populateRateLimitDescriptors config1 callbacks1 (rateLimitPolicy route_entry) []
      route_entry headers f1 w1 = Done ds_route f1 wr1 ∧
    populateRateLimitDescriptors config1 callbacks1
      (vh_rateLimitPolicy (virtualHost route_entry)) [] route_entry headers f1 wr1 =
      Done ds_vhost f1 wv1 ∧
    collect_descriptors config1 callbacks1 route_entry headers f1 w1 =
      Done (ds_route ++ ds_vhost) f1 wv1 ∧
    collect_descriptors config2 callbacks2 route_entry headers f2 w2 =
      Done (ds_route ++ ds_vhost) f2 wv2 ∧
    populateRateLimitDescriptors config2 callbacks2 (rateLimitPolicy route_entry) []
      route_entry headers f2 w2 = Done ds_route f2 wr2 ∧
    ds_route =
      spec_evaluate config1 callbacks1 route_entry headers (rt_queries w1)
        (getApplicableRateLimit (rateLimitPolicy route_entry) (stage config1)) ∧
    ds_vhost =
      spec_evaluate config1 callbacks1 route_entry headers (rt_queries wr1)
        (getApplicableRateLimit (vh_rateLimitPolicy (virtualHost route_entry))
           (stage config1)).
Proof.
  intros Hstage Hlocal Haddr Hgates.
  assert (Hroute : spec_evaluate config1 callbacks1 route_entry headers (rt_queries w1)
                     (route_rules config1 route_entry) =
                   spec_evaluate config2 callbacks2 route_entry headers (rt_queries w2)
                     (route_rules config2 route_entry)).
  { unfold route_rules. rewrite Hstage. now apply spec_evaluate_agree. }
  assert (Hvhost : spec_evaluate config1 callbacks1 route_entry headers
                     (rt_queries w1 + gated (route_rules config1 route_entry))
                     (vhost_rules config1 route_entry) =
                   spec_evaluate config2 callbacks2 route_entry headers
                     (rt_queries w2 + gated (route_rules config2 route_entry))
                     (vhost_rules config2 route_entry)).
  { unfold vhost_rules, route_rules. rewrite Hstage.
    apply spec_evaluate_agree; try assumption.
    intros k key dflt. rewrite <- !Nat.add_assoc. apply Hgates. }
  do 6 eexists.
  split; [unfold populateRateLimitDescriptors;
          rewrite populate_entries_evaluate; reflexivity|].
  split; [unfold populateRateLimitDescriptors;
          rewrite populate_entries_evaluate; reflexivity|].
  split; [rewrite collect_descriptors_evaluate; reflexivity|].
  split.
  { rewrite collect_descriptors_evaluate. unfold spec_descriptors.
    rewrite <- Hroute, <- Hvhost. reflexivity. }
  split.
  { unfold populateRateLimitDescriptors. rewrite populate_entries_evaluate.
    fold (route_rules config2 route_entry). rewrite <- Hroute. reflexivity. }
  split; reflexivity.
Qed.

Lemma descriptor_evaluation_is_deterministic_witness :
  ∃ ds w' w'',
    collect_descriptors (sample_config true) sample_callbacks sample_route_entry []
      new_filter new_world = Done ds new_filter w' ∧
    collect_descriptors (sample_config true) sample_callbacks sample_route_entry []
      calling_filter (w_call cancel new_world) = Done ds calling_filter w'' ∧
    ds = [sample_descriptor].
Proof.
  destruct (descriptor_evaluation_is_deterministic (sample_config true)
              (sample_config true) sample_callbacks sample_callbacks
              sample_route_entry [] new_filter new_world calling_filter
              (w_call cancel new_world) eq_refl eq_refl eq_refl
              (λ _ _ _, eq_refl))
    as (dr & dv & wr1 & wv1 & wr2 & wv2 & _ & _ & H1 & H2 & _ & Hr & Hv).
  exists (dr ++ dv), wv1, wv2. split; [exact H1|]. split; [exact H2|].
  rewrite Hr, Hv. reflexivity.
Defined.

(** ** Repeated completion *)

(** C10, as stated, fails: [complete] has no guard.  Run twice on the same
    filter it returns normally both times; the second run charges the
    counter again and resumes the chain again. *)
Lemma second_complete_runs_again :
  ∃ f1 w1 f2 w2,
    complete (sample_config true) OK calling_filter new_world = Done tt f1 w1 ∧
    complete (sample_config true) OK f1 w1 = Done tt f2 w2 ∧
    counter_value "cluster.fake_cluster.ratelimit.ok" w2 = 2 ∧
    calls w2 = [continueDecoding; continueDecoding] ∧
    completions w2 = 2.
Proof.
  do 4 eexists.
  split; [vm_compute; reflexivity|].
  split; [vm_compute; reflexivity|].
  repeat split; vm_compute; reflexivity.
Qed.

(** C10, amended: that [complete] runs at most once per request is the
    client's contract, and under it no request sees a second completion.
    The filter does not check it: in whatever phase it is called, with the
    cluster resolved, [complete] returns normally, counts as one more
    completion, charges the counter of the status once more and sets the
    phase as a first run would. *)
Theorem complete_is_unguarded config_ :
  (∀ callbacks_ client_ s,
     reachable config_ callbacks_ client_ s → completions (world s) ≤ 1) ∧
  (∀ status f w c,
     cluster_ f = Some c →
     ∃ f' w',
       complete config_ status f w = Done tt f' w' ∧
       completions w' = S (completions w) ∧
       counter_value (statsScope c +:+ outcome_counter status) w' =
         S (counter_value (statsScope c +:+ outcome_counter status) w) ∧
       state_ f' = (if enforced config_ status w then Responded else Complete)).
Proof.
  split.
  - intros callbacks_ client_ s Hreach.
    destruct (reachable_Inv _ _ _ _ Hreach) as (_ & Hl & _).
    unfold completions. rewrite Hl.
    destruct (state_ (filter s)); cbn; lia.
  - intros status f w c Hc.
    destruct (complete_resolved config_ status f w c Hc)
      as (f' & w' & Heq & _ & _ & _ & _ & Hst & Hl & _).
    exists f', w'. split; [exact Heq|].
    split.
    { unfold completions. rewrite Hl, List.filter_app, length_app.
      destruct (enforced config_ status w); cbn; lia. }
    split; [|exact Hst].
    exact (proj1 (counter_after_complete _ _ _ _ _ _ _ Hc Heq)).
Qed.

Lemma complete_is_unguarded_witness :
  (∃ s,
     run (sample_config true) sample_callbacks (sample_client None) new_system
       [in_headers [] false; in_complete OK] = Some s ∧
     completions (world s) ≤ 1) ∧
  ∃ f' w',
    complete (sample_config true) OverLimit
      {| state_ := Responded; initiating_call_ := false;
         cluster_ := Some sample_cluster |} new_world = Done tt f' w' ∧
    completions w' = 1.
Proof.
  destruct (complete_is_unguarded (sample_config true)) as [Honce Hrun].
  split.
  - eexists. split; [vm_compute; reflexivity|].
    apply (Honce sample_callbacks (sample_client None)).
    exists new_system, [in_headers [] false; in_complete OK].
    split; [repeat split; reflexivity|vm_compute; reflexivity].
  - destruct (Hrun OverLimit
                {| state_ := Responded; initiating_call_ := false;
                   cluster_ := Some sample_cluster |} new_world sample_cluster eq_refl)
      as (f' & w' & Heq & Hn & _).
    exists f', w'. split; [exact Heq|exact Hn].
Defined.


(** ** Further properties of the completion handler *)

(** X6: when the completion reports [OK] for a request whose cluster is
    resolved, [complete] leaves the phase [Complete], charges
    ratelimit.ok by one and no other counter, asks the runtime nothing,
    charges no response-code statistics and sends no response; it calls
    [continueDecoding] exactly when it does not run inside [limit]. *)
Theorem complete_ok_proceeds config_ f w c :
  cluster_ f = Some c →
  ∃ f' w',
    complete config_ OK f w = Done tt f' w' ∧
    state_ f' = Complete ∧
    rt_queries w' = rt_queries w ∧
    calls w' = calls w ++ (if initiating_call_ f then [] else [continueDecoding]) ∧
    counter_value (statsScope c +:+ "ratelimit.ok") w' =
      S (counter_value (statsScope c +:+ "ratelimit.ok") w) ∧
    (∀ other, other ≠ statsScope c +:+ "ratelimit.ok" →
       counter_value other w' = counter_value other w).
Proof.
  intros Hc.
  destruct (complete_resolved config_ OK f w c Hc)
    as (f' & w' & Heq & _ & _ & _ & _ & Hst & _ & Hcalls).
  cbn [enforced is_OverLimit andb app] in Hst, Hcalls.
  exists f', w'. split; [exact Heq|]. split; [exact Hst|].
  split.
  { revert Heq. unfold complete. run_M. rewrite Hc. run_M.
    destruct (initiating_call_ f); cbn; now intros [= _ <-]. }
  split; [exact Hcalls|].
  exact (counter_after_complete _ _ _ _ _ _ _ Hc Heq).
Qed.

Lemma complete_ok_proceeds_witness :
  ∃ f' w',
    complete (sample_config true) OK calling_filter new_world = Done tt f' w' ∧
    calls w' = [continueDecoding].
Proof.
  destruct (complete_ok_proceeds (sample_config true) calling_filter new_world
              sample_cluster eq_refl) as (f' & w' & Heq & _ & _ & Hcalls & _).
  exists f', w'. split; [exact Heq|exact Hcalls].
Defined.

(** X7: when the completion reports [OverLimit], the cluster is resolved
    and the enforcing gate answers no, [complete] charges what an enforced
    verdict charges (ratelimit.over_limit by one, the response-code
    statistics once) but sends no response and sets no flag: the phase is
    [Complete] and the chain is resumed unless [complete] runs inside
    [limit]. *)
Theorem complete_over_limit_not_enforced config_ f w c :
  cluster_ f = Some c →
  featureEnabled config_ (rt_queries w) "ratelimit.http_filter_enforcing" 100%Z = false →
  ∃ f' w',
    complete config_ OverLimit f w = Done tt f' w' ∧
    state_ f' = Complete ∧
    rt_queries w' = S (rt_queries w) ∧
    calls w' =
      calls w ++ chargeResponseStat (over_limit_info c) ::
                 (if initiating_call_ f then [] else [continueDecoding]) ∧
    counter_value (statsScope c +:+ "ratelimit.over_limit") w' =
      S (counter_value (statsScope c +:+ "ratelimit.over_limit") w) ∧
    (∀ other, other ≠ statsScope c +:+ "ratelimit.over_limit" →
       counter_value other w' = counter_value other w).
Proof.
  intros Hc Hgate.
  destruct (complete_resolved config_ OverLimit f w c Hc)
    as (f' & w' & Heq & _ & _ & _ & _ & Hst & _ & Hcalls).
  unfold enforced in Hst, Hcalls. rewrite Hgate in Hst, Hcalls.
  cbn [is_OverLimit andb app] in Hst, Hcalls.
  exists f', w'. split; [exact Heq|]. split; [exact Hst|].
  split.
  { revert Heq. unfold complete. run_M. repeat (rewrite Hc; run_M).
    rewrite Hgate. run_M. destruct (initiating_call_ f); cbn [negb];
      intros [= _ <-]; reflexivity. }
  split; [exact Hcalls|].
  exact (counter_after_complete _ _ _ _ _ _ _ Hc Heq).
Qed.

Lemma complete_over_limit_not_enforced_witness :
  ∃ f' w',
    complete observing_config OverLimit calling_filter new_world = Done tt f' w' ∧
    state_ f' = Complete ∧
    calls w' = [chargeResponseStat (over_limit_info sample_cluster); continueDecoding].
Proof.
  destruct (complete_over_limit_not_enforced observing_config calling_filter
              new_world sample_cluster eq_refl eq_refl)
    as (f' & w' & Heq & Hst & _ & Hcalls & _).
  exists f', w'. split; [exact Heq|]. split; [exact Hst|exact Hcalls].
Defined.

(** X8: [complete] returns normally exactly when the cluster handle is not
    null; its only fault is the null dereference, never an assertion. *)
Theorem complete_returns_iff_cluster_resolved config_ status f w :
  ((∃ f' w', complete config_ status f w = Done tt f' w') ↔ cluster_ f ≠ None) ∧
  (∀ e, complete config_ status f w = Fault e → e = NullDereference ∧ cluster_ f = None).
Proof.
  destruct (cluster_ f) as [c|] eqn:Hc.
  - destruct (complete_resolved config_ status f w c Hc) as (f' & w' & Heq & _).
    split.
    + split; [discriminate|]. intros _. now exists f', w'.
    + intros e He. rewrite Heq in He. discriminate.
  - pose proof (complete_null config_ status f w Hc) as Hnull. split.
    + split; [|congruence]. intros (f' & w' & Heq). rewrite Hnull in Heq. discriminate.
    + intros e He. rewrite Hnull in He. injection He as <-. now split.
Qed.

(** X9: whatever the status, the calls a run of [complete] adds are never
    both a response and a resumption of the chain; they contain neither
    [limit] nor [cancel]; the rate-limited flag is set exactly when the
    response is sent, and the response-code statistics are charged exactly
    when the status is [OverLimit], enforced or not. *)
Theorem complete_responds_or_resumes config_ status f w f' w' :
  complete config_ status f w = Done tt f' w' →
  ∃ added,
    calls w' = calls w ++ added ∧
    count is_encodeHeaders added + count is_continueDecoding added ≤ 1 ∧
    count is_encodeHeaders added = (if enforced config_ status w then 1 else 0) ∧
    count is_setResponseFlag added = count is_encodeHeaders added ∧
    count is_chargeResponseStat added = (if is_OverLimit status then 1 else 0) ∧
    count is_limit added = 0 ∧
    count is_cancel added = 0.
Proof.
  intros Hrun.
  destruct (cluster_ f) as [c|] eqn:Hc;
    [|rewrite complete_null in Hrun by assumption; discriminate].
  destruct (complete_resolved config_ status f w c Hc)
    as (f2 & w2 & Heq & _ & _ & _ & _ & _ & _ & Hcalls).
  rewrite Heq in Hrun. injection Hrun as <- <-.
  eexists. split; [exact Hcalls|].
  rewrite !count_app.
  destruct (is_OverLimit status), (enforced config_ status w),
    (initiating_call_ f); cbn; repeat split; lia.
Qed.

Lemma complete_responds_or_resumes_witness :
  ∃ f' w' added,
    complete (sample_config true) Error calling_filter new_world = Done tt f' w' ∧
    calls w' = calls new_world ++ added ∧
    count is_encodeHeaders added + count is_continueDecoding added ≤ 1.
Proof.
  destruct (complete (sample_config true) Error calling_filter new_world)
    as [[] f' w'|e] eqn:Heq; [|vm_compute in Heq; discriminate].
  destruct (complete_responds_or_resumes _ _ _ _ _ _ Heq)
    as (added & Hcalls & Hone & _).
  exists f', w', added. split; [reflexivity|]. split; [exact Hcalls|exact Hone].
Defined.

(** ** Further properties of the header hook *)

(** X1: when the gate ratelimit.http_filter_enabled answers no,
    [decodeHeaders] returns Continue whatever the filter's phase, leaves the
    filter as it is (no route lookup, no cluster lookup) and the world too
    but for the one runtime query; and if no call was outstanding, nothing
    the chain delivers afterwards changes the filter or the world: the whole
    request goes by without a call to the client, a counter or a response. *)
Theorem global_gate_disabled_skips_request config_ callbacks_ client_ headers
    end_stream f w :
  featureEnabled config_ (rt_queries w) "ratelimit.http_filter_enabled" 100%Z = false →
  decodeHeaders config_ callbacks_ client_ headers end_stream f w =
    Done FilterHeadersStatus.Continue f (w_queries (S (rt_queries w)) w) ∧
  ∀ inputs s',
    state_ f ≠ Calling → outstanding w = false →
    run config_ callbacks_ client_
      {| filter := f; world := w; headers_seen := false; stream_open := true |}
      (in_headers headers end_stream :: inputs) = Some s' →
    filter s' = f ∧ world s' = w_queries (S (rt_queries w)) w.
Proof.
  intros Hgate.
  assert (Heq : decodeHeaders config_ callbacks_ client_ headers end_stream f w =
                Done FilterHeadersStatus.Continue f (w_queries (S (rt_queries w)) w))
    by (now rewrite decodeHeaders_eq, Hgate).
  split; [exact Heq|].
  intros inputs s' Hst Hout. cbn [run]. unfold step at 1.
  cbn [enabled stream_open headers_seen andb negb handle filter world].
  rewrite (bind_Done _ _ _ _ _ _ _ Heq). unfold mret, M_ret. cbn [orb is_headers].
  intros Hrun.
  apply (settled_run config_ callbacks_ client_ inputs _ s') in Hrun;
    [exact Hrun|reflexivity|exact Hout|now right].
Qed.

Lemma global_gate_disabled_skips_request_witness :
  ∃ s',
    run disabled_config sample_callbacks (sample_client (Some OverLimit)) new_system
      [in_headers [] false; in_data true; in_reset] = Some s' ∧
    filter s' = new_filter ∧ calls (world s') = [] ∧ stats (world s') = ∅.
Proof.
  eexists. split; [vm_compute; reflexivity|].
  destruct (proj2 (global_gate_disabled_skips_request disabled_config sample_callbacks
              (sample_client (Some OverLimit)) [] false new_filter new_world eq_refl)
              [in_data true; in_reset] _ ltac:(discriminate) eq_refl
              ltac:(vm_compute; reflexivity)) as [Hf Hw].
  rewrite Hf, Hw. repeat split.
Defined.

(** X2: when the request matches no route, or a route without a route
    entry, [decodeHeaders] on a filter in phase [Idle] returns Continue and
    changes nothing but the count of runtime queries: the registry is not
    asked for a cluster, no descriptor is built, no call is made; and, with
    no call outstanding, nothing delivered afterwards changes the filter or
    the world. *)
Theorem unrouted_request_proceeds config_ callbacks_ client_ headers end_stream f w :
  route callbacks_ ≫= routeEntry = None →
  state_ f = Idle →
  decodeHeaders config_ callbacks_ client_ headers end_stream f w =
    Done FilterHeadersStatus.Continue f (w_queries (S (rt_queries w)) w) ∧
  ∀ inputs s',
    outstanding w = false →
    run config_ callbacks_ client_
      {| filter := f; world := w; headers_seen := false; stream_open := true |}
      (in_headers headers end_stream :: inputs) = Some s' →
    filter s' = f ∧ world s' = w_queries (S (rt_queries w)) w.
Proof.
  intros Hroute Hidle.
  assert (Heq : decodeHeaders config_ callbacks_ client_ headers end_stream f w =
                Done FilterHeadersStatus.Continue f (w_queries (S (rt_queries w)) w)).
  { rewrite decodeHeaders_eq, Hroute, Hidle.
    now destruct (featureEnabled _ _ _ _). }
  split; [exact Heq|].
  intros inputs s' Hout. cbn [run]. unfold step at 1.
  cbn [enabled stream_open headers_seen andb negb handle filter world].
  rewrite (bind_Done _ _ _ _ _ _ _ Heq). unfold mret, M_ret. cbn [orb is_headers].
  intros Hrun.
  apply (settled_run config_ callbacks_ client_ inputs _ s') in Hrun;
    [exact Hrun|reflexivity|exact Hout|right; cbn; congruence].
Qed.

Lemma unrouted_request_proceeds_witness :
  decodeHeaders (sample_config false) routeless_callbacks (sample_client (Some OK))
    [] false new_filter new_world =
  Done FilterHeadersStatus.Continue new_filter (w_queries 1 new_world).
Proof.
  exact (proj1 (unrouted_request_proceeds (sample_config false) routeless_callbacks
                  (sample_client (Some OK)) [] false new_filter new_world
                  eq_refl eq_refl)).
Defined.

(** X3: when the gate is on, the route resolves, the descriptors built are
    not empty and the client keeps the call, [decodeHeaders] returns
    StopIteration; the filter is left in phase [Calling] with
    [initiating_call_] cleared and the cluster handle set to what the
    registry answered (null included); the one call made is [limit] with
    the configured domain, the descriptors built, and the value of the
    request-id header, or the empty string when the header is absent. *)
Theorem deferred_call_pauses_chain config_ callbacks_ client_ headers end_stream
    f w route_entry ds f1 w1 :
  featureEnabled config_ (rt_queries w) "ratelimit.http_filter_enabled" 100%Z = true →
  route callbacks_ ≫= routeEntry = Some route_entry →
  collect_descriptors config_ callbacks_ route_entry headers
    (upd_cluster (cm_get config_ (clusterName (info route_entry))) f)
    (w_queries (S (rt_queries w)) w) = Done ds f1 w1 →
  ds ≠ [] →
  completes_inline client_ (domain config_) ds (request_id_arg headers) = None →
  ∃ f' w',
    decodeHeaders config_ callbacks_ client_ headers end_stream f w =
      Done FilterHeadersStatus.StopIteration f' w' ∧
    state_ f' = Calling ∧
    initiating_call_ f' = false ∧
    cluster_ f' = cm_get config_ (clusterName (info route_entry)) ∧
    outstanding w' = true ∧
    stats w' = stats w ∧
    state_log w' = state_log w ++ [Calling] ∧
    calls w' =
      calls w ++ [limit (domain config_) ds
                    (match header_get "x-request-id" headers with
                     | Some v => v
                     | None => ""
                     end)].
Proof.
  intros Hgate Hroute Hcollect Hne Hlater.
  rewrite collect_descriptors_evaluate in Hcollect.
  injection Hcollect as Hds _ Hw1.
  assert (Hds' : ds = spec_descriptors config_ callbacks_ route_entry headers
                        (S (rt_queries w)))
    by (rewrite <- Hds; reflexivity).
  rewrite decodeHeaders_eq, Hgate, Hroute. cbv zeta. rewrite <- Hds'.
  destruct ds as [|d ds]; [congruence|].
  rewrite client_limit_eq, Hlater.
  do 2 eexists. split; [reflexivity|]. cbn. repeat split; reflexivity.
Qed.

Lemma deferred_call_pauses_chain_witness :
  ∃ f' w',
    decodeHeaders (sample_config false) sample_callbacks (sample_client None)
      [("x-request-id", "abc")] false new_filter new_world =
      Done FilterHeadersStatus.StopIteration f' w' ∧
    cluster_ f' = None ∧
    calls w' = [limit "foo" [sample_descriptor] "abc"].
Proof.
  destruct (deferred_call_pauses_chain (sample_config false) sample_callbacks
              (sample_client None) [("x-request-id", "abc")] false new_filter
              new_world sample_route_entry [sample_descriptor]
              (upd_cluster None new_filter) (w_queries 2 new_world)
              eq_refl eq_refl eq_refl ltac:(discriminate) eq_refl)
    as (f' & w' & Heq & _ & _ & Hcl & _ & _ & _ & Hcalls).
  exists f', w'. split; [exact Heq|]. split; [exact Hcl|exact Hcalls].
Defined.

(** X4: [decodeHeaders] has one way to fault: the route resolves, the
    registry does not know its cluster, descriptors were built, and the
    client runs the completion handler inside [limit]; the fault is then
    the null dereference of [complete]. *)
Theorem decodeHeaders_faults_only_inline_unresolved config_ callbacks_ client_
    headers end_stream f w e :
  decodeHeaders config_ callbacks_ client_ headers end_stream f w = Fault e →
  e = NullDereference ∧
  ∃ route_entry ds status,
    route callbacks_ ≫= routeEntry = Some route_entry ∧
    cm_get config_ (clusterName (info route_entry)) = None ∧
    ds ≠ [] ∧
    completes_inline client_ (domain config_) ds (request_id_arg headers) = Some status.
Proof.
  rewrite decodeHeaders_eq.
  destruct (featureEnabled _ _ _ _); [|discriminate].
  destruct (route callbacks_ ≫= routeEntry) as [route_entry|]; [|discriminate].
  cbv zeta.
  destruct (spec_descriptors _ _ _ _ _) as [|d ds]; [discriminate|].
  rewrite client_limit_eq.
  destruct (completes_inline _ _ _ _) as [status|] eqn:Hinline; [|discriminate].
  destruct (cm_get config_ (clusterName (info route_entry))) as [c|] eqn:Hcm.
  - destruct (complete_resolved config_ status
                (upd_initiating_call true
                   (upd_state Calling (upd_cluster (Some c) f)))
                (w_call (limit (domain config_) (d :: ds) (request_id_arg headers))
                   (w_log Calling
                      (w_queries
                         (S (rt_queries w)
                          + gated (route_rules config_ route_entry)
                          + gated (vhost_rules config_ route_entry)) w)))
                c eq_refl) as (f2 & w2 & -> & _).
    discriminate.
  - rewrite complete_null by reflexivity. intros [= <-].
    split; [reflexivity|].
    exists route_entry, (d :: ds), status. repeat split; try assumption. discriminate.
Qed.

Lemma decodeHeaders_faults_only_inline_unresolved_witness :
  ∃ route_entry,
    route sample_callbacks ≫= routeEntry = Some route_entry ∧
    cm_get (sample_config false) (clusterName (info route_entry)) = None.
Proof.
  destruct (decodeHeaders_faults_only_inline_unresolved (sample_config false)
              sample_callbacks (sample_client (Some Error)) [] false new_filter
              new_world NullDereference ltac:(vm_compute; reflexivity))
    as (_ & route_entry & ds & status & Hroute & Hcm & _).
  exists route_entry. split; [exact Hroute|exact Hcm].
Defined.

(** X5: on a fresh filter with no call outstanding, whenever
    [decodeHeaders] returns, the signal it returns is the one lines 56-58
    read off the phase it leaves: StopIteration exactly in the phases
    [Calling] and [Responded]; [initiating_call_] is false again, and a
    call is outstanding exactly when the phase left is [Calling]. *)
Theorem headers_signal_reflects_phase config_ callbacks_ client_ headers end_stream
    f w r f' w' :
  state_ f = Idle → initiating_call_ f = false → outstanding w = false →
  decodeHeaders config_ callbacks_ client_ headers end_stream f w = Done r f' w' →
  (r = FilterHeadersStatus.StopIteration ↔
     state_ f' = Calling ∨ state_ f' = Responded) ∧
  initiating_call_ f' = false ∧
  (outstanding w' = true ↔ state_ f' = Calling).
Proof.
  intros Hidle Hinit Hout. rewrite decodeHeaders_eq, Hidle.
  destruct (featureEnabled _ _ _ _).
  2:{ intros [= <- <- <-]. rewrite Hidle, Hinit. cbn. rewrite Hout.
      repeat split; try discriminate; intros [|]; discriminate. }
  destruct (route callbacks_ ≫= routeEntry) as [route_entry|].
  2:{ intros [= <- <- <-]. rewrite Hidle, Hinit. cbn. rewrite Hout.
      repeat split; try discriminate; intros [|]; discriminate. }
  cbv zeta.
  destruct (spec_descriptors _ _ _ _ _) as [|d ds].
  { intros [= <- <- <-]. cbn. rewrite Hidle, Hinit, Hout.
    repeat split; try discriminate; intros [|]; discriminate. }
  rewrite client_limit_eq.
  destruct (completes_inline _ _ _ _) as [status|].
  - destruct (cm_get config_ (clusterName (info route_entry))) as [c|] eqn:Hcm;
      [|rewrite complete_null by reflexivity; discriminate].
    destruct (complete_resolved config_ status
                (upd_initiating_call true
                   (upd_state Calling (upd_cluster (Some c) f)))
                (w_call (limit (domain config_) (d :: ds) (request_id_arg headers))
                   (w_log Calling
                      (w_queries
                         (S (rt_queries w)
                          + gated (route_rules config_ route_entry)
                          + gated (vhost_rules config_ route_entry)) w)))
                c eq_refl) as (f2 & w2 & -> & _ & _ & Ho2 & _ & Hst2 & _).
    intros [= <- <- <-]. cbn [state_ initiating_call_ upd_initiating_call].
    cbn in Ho2. rewrite Ho2, Hout, Hst2.
    destruct (enforced _ _ _); cbn; repeat split; try discriminate; auto;
      intros [|]; discriminate.
  - intros [= <- <- <-]. cbn. repeat split; auto.
Qed.

Lemma headers_signal_reflects_phase_witness :
  ∃ r f' w',
    decodeHeaders (sample_config true) sample_callbacks (sample_client (Some OverLimit))
      [] false new_filter new_world = Done r f' w' ∧
    state_ f' = Responded ∧ r = FilterHeadersStatus.StopIteration.
Proof.
  destruct (decodeHeaders (sample_config true) sample_callbacks
              (sample_client (Some OverLimit)) [] false new_filter new_world)
    as [r f' w'|e] eqn:Heq; [|vm_compute in Heq; discriminate].
  assert (Hst : state_ f' = Responded)
    by (vm_compute in Heq; injection Heq as _ <- _; reflexivity).
  destruct (headers_signal_reflects_phase (sample_config true) sample_callbacks
              (sample_client (Some OverLimit)) [] false new_filter new_world
              r f' w' eq_refl eq_refl eq_refl Heq) as (Hsig & _).
  exists r, f', w'. split; [reflexivity|]. split; [exact Hst|].
  apply Hsig. now right.
Defined.

(** ** Further properties of descriptor evaluation *)

(** X10: [populateRateLimitDescriptors] never faults and touches nothing
    but the runtime: the filter is unchanged, no call is made, no counter
    charged, no phase assigned; it puts exactly one query to the runtime per
    applicable entry with a non-empty route key, and the descriptors handed
    in come back as a prefix of the result. *)
Theorem populate_only_queries_runtime config_ callbacks_ policy descriptors
    route_entry headers f w :
  ∃ added w',
    populateRateLimitDescriptors config_ callbacks_ policy descriptors route_entry
      headers f w = Done (descriptors ++ added) f w' ∧
    rt_queries w' =
      rt_queries w +
      length (List.filter (λ r, negb (string_empty (routeKey r)))
                (getApplicableRateLimit policy (stage config_))) ∧
    stats w' = stats w ∧ calls w' = calls w ∧
    outstanding w' = outstanding w ∧ state_log w' = state_log w.
Proof.
  unfold populateRateLimitDescriptors. rewrite populate_entries_evaluate.
  do 2 eexists. split; [reflexivity|]. repeat split.
Qed.

(** X11: the loop composes over concatenation: running it over
    [l1 ++ l2] is running it over [l1] and then over [l2] from what [l1]
    built; so the two passes of [decodeHeaders] (route, then virtual host)
    are one pass over the route's applicable entries followed by the
    virtual host's. *)
Theorem populate_entries_app config_ callbacks_ l1 l2 descriptors route_entry
    headers f w :
  populate_entries config_ callbacks_ (l1 ++ l2) descriptors route_entry headers f w =
    (populate_entries config_ callbacks_ l1 descriptors route_entry headers ≫=
       λ d, populate_entries config_ callbacks_ l2 d route_entry headers) f w ∧
  collect_descriptors config_ callbacks_ route_entry headers f w =
    populate_entries config_ callbacks_
      (getApplicableRateLimit (rateLimitPolicy route_entry) (stage config_) ++
       getApplicableRateLimit (vh_rateLimitPolicy (virtualHost route_entry))
         (stage config_))
      [] route_entry headers f w.
Proof.
  assert (Happ : ∀ l1 l2 descriptors f w,
    populate_entries config_ callbacks_ (l1 ++ l2) descriptors route_entry headers f w =
    (populate_entries config_ callbacks_ l1 descriptors route_entry headers ≫=
       λ d, populate_entries config_ callbacks_ l2 d route_entry headers) f w).
  { intros k1 k2 ds g v.
    erewrite bind_Done by apply populate_entries_evaluate.
    rewrite !populate_entries_evaluate. cbn [rt_queries w_queries].
    rewrite spec_evaluate_app, gated_app, w_queries_twice, app_assoc, Nat.add_assoc.
    reflexivity. }
  split; [apply Happ|].
  rewrite Happ. reflexivity.
Qed.

(** X12: in the loop over [pre ++ rule :: post], a rule with a non-empty
    route key whose gate answers yes has its descriptors appended to what
    [pre] built, after one query to the runtime, and the loop goes on over
    [post]. *)
Theorem enabled_route_gate_appends_rule config_ callbacks_ pre rule post
    descriptors route_entry headers f w d1 f1 w1 :
  populate_entries config_ callbacks_ pre descriptors route_entry headers f w =
    Done d1 f1 w1 →
  string_empty (routeKey rule) = false →
  featureEnabled config_ (rt_queries w1)
    ("ratelimit." +:+ routeKey rule +:+ ".http_filter_enabled") 100%Z = true →
  populate_entries config_ callbacks_ (pre ++ rule :: post) descriptors
    route_entry headers f w =
  populate_entries config_ callbacks_ post
    (d1 ++ populateDescriptors rule (info route_entry)
             (localInfo_clusterName config_) headers (downstreamAddress callbacks_))
    route_entry headers f1 (w_queries (S (rt_queries w1)) w1).
Proof.
  intros Hpre Hkey Hgate. fold (route_gate (routeKey rule)) in Hgate.
  rewrite populate_entries_evaluate in Hpre.
  injection Hpre as Hd1 Hf1 Hw1. subst d1 f1 w1.
  cbn [rt_queries w_queries] in *.
  rewrite !populate_entries_evaluate. cbn [rt_queries w_queries].
  rewrite spec_evaluate_app, gated_app. cbn [spec_evaluate].
  rewrite Hkey, Hgate, !w_queries_twice.
  assert (Hg : gated (rule :: post) = S (gated post))
    by (unfold gated; cbn [List.filter]; now rewrite Hkey).
  rewrite Hg, <- !app_assoc. unfold produce. do 2 f_equal. lia.
Qed.

Lemma enabled_route_gate_appends_rule_witness :
  populate_entries (sample_config true) sample_callbacks
    ([keyless_rule] ++ sample_rule :: []) [] sample_route_entry [] new_filter new_world =
  Done [{| entries_ := [{| key_ := "to_cluster"; value_ := "fake_cluster" |}] |};
        sample_descriptor] new_filter (w_queries 1 new_world).
Proof.
  rewrite (enabled_route_gate_appends_rule (sample_config true) sample_callbacks
             [keyless_rule] sample_rule [] [] sample_route_entry [] new_filter
             new_world _ new_filter new_world eq_refl eq_refl eq_refl).
  reflexivity.
Defined.

Lemma spec_evaluate_sound config_ callbacks_ route_entry headers rules : ∀ n d,
  d ∈ spec_evaluate config_ callbacks_ route_entry headers n rules →
  ∃ rule, rule ∈ rules ∧ d ∈ produce config_ callbacks_ route_entry headers rule.
Proof.
  induction rules as [|rule rest IH]; intros n d; cbn [spec_evaluate].
  - intros H. now apply elem_of_nil in H.
  - assert (Hrest : ∀ m, d ∈ spec_evaluate config_ callbacks_ route_entry headers m rest →
              ∃ r, r ∈ rule :: rest ∧ d ∈ produce config_ callbacks_ route_entry headers r).
    { intros m Hm. destruct (IH m d Hm) as (r & Hr & Hd).
      exists r. split; [apply elem_of_cons; now right|exact Hd]. }
    assert (Hhere : d ∈ produce config_ callbacks_ route_entry headers rule →
              ∃ r, r ∈ rule :: rest ∧ d ∈ produce config_ callbacks_ route_entry headers r).
    { intros Hd. exists rule. split; [apply elem_of_cons; now left|exact Hd]. }
    destruct (string_empty (routeKey rule)).
    + intros [H|H]%elem_of_app; eauto.
    + destruct (featureEnabled _ _ _ _).
      * intros [H|H]%elem_of_app; eauto.
      * eauto.
Qed.

Lemma spec_evaluate_keyless config_ callbacks_ route_entry headers rules : ∀ n rule d,
  rule ∈ rules → string_empty (routeKey rule) = true →
  d ∈ produce config_ callbacks_ route_entry headers rule →
  d ∈ spec_evaluate config_ callbacks_ route_entry headers n rules.
Proof.
  induction rules as [|r rest IH]; intros n rule d Hin Hkey Hd.
  - now apply elem_of_nil in Hin.
  - cbn [spec_evaluate]. apply elem_of_cons in Hin as [->|Hin].
    + rewrite Hkey. apply elem_of_app. now left.
    + destruct (string_empty (routeKey r)).
      * apply elem_of_app. right. eapply IH; eassumption.
      * destruct (featureEnabled _ _ _ _).
        -- apply elem_of_app. right. eapply IH; eassumption.
        -- eapply IH; eassumption.
Qed.

(** X13: the loop invents no descriptor and loses none of an ungated rule:
    every descriptor of the result was handed in or is produced by one of
    the entries, and every descriptor produced by an entry with an empty
    route key is in the result, as is every descriptor handed in. *)
Theorem populate_entries_members config_ callbacks_ entries descriptors
    route_entry headers f w out f' w' :
  populate_entries config_ callbacks_ entries descriptors route_entry headers f w =
    Done out f' w' →
  (∀ d, d ∈ out →
     d ∈ descriptors ∨
     ∃ rule, rule ∈ entries ∧
       d ∈ populateDescriptors rule (info route_entry)
             (localInfo_clusterName config_) headers (downstreamAddress callbacks_)) ∧
  (∀ d, d ∈ descriptors → d ∈ out) ∧
  (∀ rule d, rule ∈ entries → string_empty (routeKey rule) = true →
     d ∈ populateDescriptors rule (info route_entry)
           (localInfo_clusterName config_) headers (downstreamAddress callbacks_) →
     d ∈ out).
Proof.
  rewrite populate_entries_evaluate. intros [= <- _ _]. split; [|split].
  - intros d [H|H]%elem_of_app; [now left|right].
    exact (spec_evaluate_sound _ _ _ _ _ _ _ H).
  - intros d H. apply elem_of_app. now left.
  - intros rule d Hin Hkey Hd. apply elem_of_app. right.
    eapply spec_evaluate_keyless; eassumption.
Qed.

Lemma populate_entries_members_witness :
  ∃ out w',
    populate_entries gated_config sample_callbacks [sample_rule; keyless_rule] []
      sample_route_entry [] new_filter new_world = Done out new_filter w' ∧
    ({| entries_ := [{| key_ := "to_cluster"; value_ := "fake_cluster" |}] |} ∈ out).
Proof.
  do 2 eexists. split; [vm_compute; reflexivity|].
  apply (proj2 (proj2 (populate_entries_members gated_config sample_callbacks
                         [sample_rule; keyless_rule] [] sample_route_entry []
                         new_filter new_world _ new_filter (w_queries 1 new_world)
                         eq_refl)) keyless_rule).
  - apply elem_of_cons. right. apply elem_of_cons. now left.
  - reflexivity.
  - apply elem_of_cons. now left.
Defined.

Lemma spec_evaluate_all_disabled config_ callbacks_ route_entry headers rules : ∀ n,
  (∀ m rule, rule ∈ rules →
     string_empty (routeKey rule) = false ∧
     featureEnabled config_ m (route_gate (routeKey rule)) 100%Z = false) →
  spec_evaluate config_ callbacks_ route_entry headers n rules = [].
Proof.
  induction rules as [|rule rest IH]; intros n Hall; [reflexivity|].
  cbn [spec_evaluate].
  destruct (Hall n rule) as [-> ->]; [apply elem_of_cons; now left|].
  apply IH. intros m r Hr. apply Hall. apply elem_of_cons. now right.
Qed.

(** X14: when every applicable entry of the route and of its virtual host
    has a route key and every one of their gates answers no, a request on a
    filter in phase [Idle] proceeds: [decodeHeaders] returns Continue,
    makes no call and leaves the phase [Idle]. *)
Theorem all_route_gates_disabled_proceeds config_ callbacks_ client_ headers
    end_stream f w route_entry :
  state_ f = Idle →
  route callbacks_ ≫= routeEntry = Some route_entry →
  (∀ n rule,
     rule ∈ getApplicableRateLimit (rateLimitPolicy route_entry) (stage config_) ++
            getApplicableRateLimit (vh_rateLimitPolicy (virtualHost route_entry))
              (stage config_) →
     string_empty (routeKey rule) = false ∧
     featureEnabled config_ n
       ("ratelimit." +:+ routeKey rule +:+ ".http_filter_enabled") 100%Z = false) →
  ∃ f' w',
    decodeHeaders config_ callbacks_ client_ headers end_stream f w =
      Done FilterHeadersStatus.Continue f' w' ∧
    state_ f' = Idle ∧ calls w' = calls w ∧ stats w' = stats w ∧
    outstanding w' = outstanding w.
Proof.
  intros Hidle Hroute Hall.
  rewrite decodeHeaders_eq, Hroute, Hidle. cbv zeta.
  unfold spec_descriptors.
  rewrite !spec_evaluate_all_disabled.
  - destruct (featureEnabled _ _ _ _); do 2 eexists;
      (split; [reflexivity|]); cbn; rewrite ?Hidle; repeat split; reflexivity.
  - intros m rule Hin. apply Hall, elem_of_app. now right.
  - intros m rule Hin. apply Hall, elem_of_app. now left.
Qed.

Lemma all_route_gates_disabled_proceeds_witness :
  ∃ f' w',
    decodeHeaders gated_config sample_callbacks (sample_client (Some OverLimit))
      [] false new_filter new_world = Done FilterHeadersStatus.Continue f' w' ∧
    calls w' = [].
Proof.
  destruct (all_route_gates_disabled_proceeds gated_config sample_callbacks
              (sample_client (Some OverLimit)) [] false new_filter new_world
              sample_route_entry eq_refl eq_refl)
    as (f' & w' & Heq & _ & Hcalls & _).
  - intros n rule Hin. cbn in Hin. apply list_elem_of_singleton in Hin.
    subst rule. split; reflexivity.
  - exists f', w'. split; [exact Heq|exact Hcalls].
Defined.

(** ** Further properties of a request as a whole *)

Section Invariant2Facts.
Variable config_ : FilterConfig.
Variable callbacks_ : Callbacks.
Variable client_ : Client.

Lemma initial_Inv2 s : initial s → Inv2 config_ callbacks_ s.
Proof.
  intros (Hf & Hc & Ho & Hl & Hh & Hs). unfold Inv2.
  rewrite Hf, Hc. cbn. repeat split; try done; lia.
Qed.

Ltac world_simpl2 :=
  cbn [state_ initiating_call_ cluster_ upd_state upd_initiating_call
       upd_cluster stats calls rt_queries outstanding state_log w_stats
       w_call w_queries w_outstanding w_log filter world headers_seen
       stream_open] in *.

Ltac count_simpl2 :=
  rewrite ?count_app; cbn [count List.filter length is_continueDecoding
    is_encodeHeaders is_cancel is_limit is_setResponseFlag
    is_chargeResponseStat app State_eqb orb andb negb is_headers is_reset].

Lemma Forall_call_ok_snoc cs added :
  Forall (call_ok config_) cs → Forall (call_ok config_) added →
  Forall (call_ok config_) (cs ++ added).
Proof. intros H1 H2. apply Forall_app. now split. Qed.

Lemma step_Inv2 s i s' :
  Inv s → Inv2 config_ callbacks_ s →
  step config_ callbacks_ client_ s i = Some s' → Inv2 config_ callbacks_ s'.
Proof.
  destruct s as [f w seen open].
  intros (Hi & _ & Hs & Ho & _) (Hcall & Hflag & Hcharge & Hlim & Hcl).
  world_simpl2.
  unfold step. destruct (enabled _ i) eqn:Hen; [|discriminate].
  destruct i as [headers end_stream|end_stream| |status|]; cbn in Hen;
    cbn [handle filter world headers_seen stream_open].
  - (* headers *)
    apply andb_true_iff in Hen as [-> Hseen].
    apply negb_true_iff in Hseen. subst seen. specialize (Hs eq_refl).
    rewrite Hs in *. cbn in Hcharge.
    unfold mbind, M_bind, mret, M_ret. rewrite decodeHeaders_eq, Hs.
    destruct (featureEnabled _ _ _ _).
    2:{ intros [= <-]. unfold Inv2. world_simpl2. rewrite Hs. cbn.
        repeat split; try done; lia. }
    destruct (route callbacks_ ≫= routeEntry) as [route_entry|] eqn:Hroute.
    2:{ intros [= <-]. unfold Inv2. world_simpl2. rewrite Hs. cbn.
        repeat split; try done; lia. }
    cbv zeta.
    destruct (spec_descriptors _ _ _ _ _) as [|d ds].
    { intros [= <-]. unfold Inv2. world_simpl2. rewrite Hs. cbn.
      repeat split; try done; lia. }
    rewrite client_limit_eq.
    destruct (completes_inline _ _ _ _) as [status|].
    + destruct (cm_get config_ (clusterName (info route_entry))) as [c|] eqn:Hcm.
      2:{ rewrite complete_null by reflexivity. discriminate. }
      destruct (complete_resolved config_ status
                  (upd_initiating_call true
                     (upd_state Calling (upd_cluster (Some c) f)))
                  (w_call (limit (domain config_) (d :: ds) (request_id_arg headers))
                     (w_log Calling
                        (w_queries
                           (S (rt_queries w)
                            + gated (route_rules config_ route_entry)
                            + gated (vhost_rules config_ route_entry)) w)))
                  c eq_refl)
        as (f2 & w2 & -> & _ & Hcl2 & _ & _ & Hst2 & _ & Hc2).
      world_simpl2. intros [= <-]. unfold Inv2. world_simpl2.
      rewrite Hst2, Hc2, Hcl2.
      split; [destruct (enforced _ _ _); discriminate|].
      split; [destruct (enforced _ _ _), (is_OverLimit status); count_simpl2; lia|].
      split; [destruct (enforced _ _ _), (is_OverLimit status); count_simpl2; lia|].
      split.
      { destruct (enforced _ _ _), (is_OverLimit status);
          rewrite ?Forall_app; repeat split; try assumption;
          repeat constructor; discriminate. }
      intros _. exists route_entry. split; [exact Hroute|]. now rewrite Hcm.
    + intros [= <-]. unfold Inv2. world_simpl2. count_simpl2.
      split; [reflexivity|]. split; [lia|]. split; [lia|].
      split.
      { apply Forall_call_ok_snoc; [assumption|]. repeat constructor. discriminate. }
      intros _. exists route_entry. split; [exact Hroute|reflexivity].
  - (* data *)
    destruct (decodeData end_stream f w) as [a f' w'|] eqn:Hd;
      [|rewrite (bind_Fault _ _ _ _ _ Hd); discriminate].
    rewrite (bind_Done _ _ _ _ _ _ _ Hd).
    apply decodeData_eq in Hd as [-> ->].
    apply andb_true_iff in Hen as [-> ->].
    unfold mret, M_ret. intros [= <-]. unfold Inv2. world_simpl2. cbn [negb andb is_reset].
    repeat split; assumption.
  - (* trailers *)
    destruct (decodeTrailers f w) as [a f' w'|] eqn:Hd;
      [|rewrite (bind_Fault _ _ _ _ _ Hd); discriminate].
    rewrite (bind_Done _ _ _ _ _ _ _ Hd).
    apply decodeTrailers_eq in Hd as [-> ->].
    apply andb_true_iff in Hen as [-> ->].
    unfold mret, M_ret. intros [= <-]. unfold Inv2. world_simpl2. cbn [negb andb is_reset].
    repeat split; assumption.
  - (* completion *)
    destruct (Ho Hen) as [Hst ->]. rewrite Hst in *. cbn in Hcharge.
    erewrite bind_Done by reflexivity.
    destruct (cluster_ f) as [c|] eqn:Hclf.
    2:{ rewrite complete_null by assumption. discriminate. }
    destruct (complete_resolved config_ status f (w_outstanding false w) c Hclf)
      as (f2 & w2 & -> & Hi2 & Hcl2 & _ & _ & Hst2 & _ & Hc2).
    world_simpl2. intros [= <-]. unfold Inv2. world_simpl2.
    rewrite Hst2, Hc2, Hcl2, Hi.
    split; [destruct (enforced _ _ _); discriminate|].
    split; [destruct (enforced _ _ _), (is_OverLimit status); count_simpl2; lia|].
    split; [destruct (enforced _ _ _), (is_OverLimit status); count_simpl2; lia|].
    split.
    { destruct (enforced _ _ _), (is_OverLimit status);
        rewrite ?Forall_app; repeat split; try assumption; repeat constructor. }
    intros _. destruct Hcl as (re & Hr & Hc'); [discriminate|].
    exists re. split; [exact Hr|]. congruence.
  - (* reset *)
    subst open. rewrite resetStreamCallback_eq.
    destruct (State_eqb (state_ f) Calling) eqn:Hcalling.
    + intros [= <-]. unfold Inv2. world_simpl2. count_simpl2.
      assert (Hst : state_ f = Calling)
        by (destruct (state_ f); try discriminate; reflexivity).
      rewrite Hst in *. cbn in Hcharge. cbn [State_eqb orb].
      split; [discriminate|]. split; [lia|]. split; [lia|].
      split; [|assumption].
      apply Forall_call_ok_snoc; [assumption|]. repeat constructor.
    + intros [= <-]. unfold Inv2. world_simpl2. cbn [andb negb is_reset].
      rewrite Hcalling.
      split; [discriminate|]. repeat split; assumption.
Qed.

Lemma run_Inv2 inputs : ∀ s s',
  Inv s → Inv2 config_ callbacks_ s →
  run config_ callbacks_ client_ s inputs = Some s' → Inv2 config_ callbacks_ s'.
Proof.
  induction inputs as [|i rest IH]; intros s s' HI HI2; cbn [run].
  - now intros [= <-].
  - destruct (step config_ callbacks_ client_ s i) as [s1|] eqn:Hstep;
      [|discriminate].
    apply IH; [eapply step_Inv|eapply step_Inv2]; eassumption.
Qed.

Lemma reachable_Inv2 s :
  reachable config_ callbacks_ client_ s → Inv2 config_ callbacks_ s.
Proof.
  intros (s0 & inputs & Hinit & Hrun).
  eapply run_Inv2; [apply initial_Inv|apply initial_Inv2|]; eassumption.
Qed.
End Invariant2Facts.

(** X15: in every request whose stream is open, the body and trailer hooks
    change nothing and pause the chain exactly while a call is outstanding:
    [decodeData] then answers StopIterationAndBuffer and [decodeTrailers]
    StopIteration; with no call outstanding both answer Continue, except
    in phase [Responded], that is once the 429 has been sent, where both
    fail their assertion. *)
Theorem body_is_held_while_call_outstanding config_ callbacks_ client_ s end_stream :
  reachable config_ callbacks_ client_ s →
  stream_open s = true →
  decodeData end_stream (filter s) (world s) =
    (if outstanding (world s)
     then Done FilterDataStatus.StopIterationAndBuffer (filter s) (world s)
     else if State_eqb (state_ (filter s)) Responded then Fault AssertFailure
          else Done FilterDataStatus.Continue (filter s) (world s)) ∧
  decodeTrailers (filter s) (world s) =
    (if outstanding (world s)
     then Done FilterTrailersStatus.StopIteration (filter s) (world s)
     else if State_eqb (state_ (filter s)) Responded then Fault AssertFailure
          else Done FilterTrailersStatus.Continue (filter s) (world s)) ∧
  (state_ (filter s) = Responded ↔ count is_encodeHeaders (calls (world s)) = 1).
Proof.
  intros Hreach Hopen.
  destruct (reachable_Inv _ _ _ _ Hreach) as (_ & _ & _ & Ho & _ & Henc & _).
  destruct (reachable_Inv2 _ _ _ _ Hreach) as (Hcall & _).
  unfold decodeData, decodeTrailers. run_M.
  destruct (outstanding (world s)) eqn:Hout.
  - destruct (Ho eq_refl) as [Hst _]. rewrite Hst in *. cbn in *.
    repeat split; try congruence; lia.
  - destruct (state_ (filter s)) eqn:Hst; cbn in *;
      repeat split; try congruence; try lia.
    all: specialize (Hcall Hopen eq_refl); discriminate.
Qed.

Lemma body_is_held_while_call_outstanding_witness :
  ∃ s,
    run (sample_config true) sample_callbacks (sample_client None) new_system
      [in_headers [] false] = Some s ∧
    decodeData false (filter s) (world s) =
      Done FilterDataStatus.StopIterationAndBuffer (filter s) (world s).
Proof.
  eexists. split; [vm_compute; reflexivity|].
  match goal with
  | |- decodeData _ (filter ?s) _ = _ =>
      refine (proj1 (body_is_held_while_call_outstanding (sample_config true)
                       sample_callbacks (sample_client None) s false _ eq_refl))
  end.
  exists new_system, [in_headers [] false].
  split; [repeat split; reflexivity|vm_compute; reflexivity].
Defined.

(** X16: a request calls [limit] at most once, and not at all exactly while
    the phase is [Idle]; every [limit] call carries the configured domain
    and at least one descriptor. *)
Theorem one_limit_call_per_request config_ callbacks_ client_ s :
  reachable config_ callbacks_ client_ s →
  count is_limit (calls (world s)) ≤ 1 ∧
  (count is_limit (calls (world s)) = 0 ↔ state_ (filter s) = Idle) ∧
  ∀ dom descriptors request_id,
    limit dom descriptors request_id ∈ calls (world s) →
    dom = domain config_ ∧ descriptors ≠ [].
Proof.
  intros Hreach.
  destruct (reachable_Inv _ _ _ _ Hreach) as (_ & _ & _ & _ & _ & _ & _ & Hlim).
  destruct (reachable_Inv2 _ _ _ _ Hreach) as (_ & _ & _ & Hall & _).
  rewrite Hlim. split; [|split].
  - destruct (state_ (filter s)); cbn; lia.
  - destruct (state_ (filter s)); cbn; split; congruence.
  - intros dom descriptors request_id Hin.
    rewrite Forall_forall in Hall. exact (Hall _ Hin).
Qed.

Lemma one_limit_call_per_request_witness :
  ∃ s,
    run (sample_config true) sample_callbacks (sample_client None) new_system
      [in_headers [] false; in_data false; in_complete OK; in_trailers] = Some s ∧
    count is_limit (calls (world s)) ≤ 1.
Proof.
  eexists. split; [vm_compute; reflexivity|].
  match goal with
  | |- count _ (calls (world ?s)) ≤ _ =>
      refine (proj1 (one_limit_call_per_request (sample_config true)
                       sample_callbacks (sample_client None) s _))
  end.
  exists new_system, [in_headers [] false; in_data false; in_complete OK; in_trailers].
  split; [repeat split; reflexivity|vm_compute; reflexivity].
Defined.

(** X17: a request is answered or resumed by the filter, never both and
    neither twice: the 429 is sent at most once, and exactly in phase
    [Responded]; the rate-limited flag is set as often as the 429 is sent;
    [continueDecoding] is called at most once, only in phase [Complete],
    and never in a request that got the 429; the response-code statistics
    are charged at most once. *)
Theorem request_is_answered_or_resumed config_ callbacks_ client_ s :
  reachable config_ callbacks_ client_ s →
  count is_encodeHeaders (calls (world s)) +
    count is_continueDecoding (calls (world s)) ≤ 1 ∧
  (count is_encodeHeaders (calls (world s)) = 1 ↔ state_ (filter s) = Responded) ∧
  (count is_continueDecoding (calls (world s)) = 1 → state_ (filter s) = Complete) ∧
  count is_setResponseFlag (calls (world s)) = count is_encodeHeaders (calls (world s)) ∧
  count is_chargeResponseStat (calls (world s)) ≤ 1.
Proof.
  intros Hreach.
  destruct (reachable_Inv _ _ _ _ Hreach) as (_ & _ & _ & _ & Hcont & Henc & _).
  destruct (reachable_Inv2 _ _ _ _ Hreach) as (_ & Hflag & Hcharge & _).
  rewrite Hflag, Henc. revert Hcont Hcharge.
  destruct (state_ (filter s)); cbn; intros Hcont Hcharge;
    repeat split; try congruence; lia.
Qed.

Lemma request_is_answered_or_resumed_witness :
  ∃ s,
    run (sample_config true) sample_callbacks (sample_client None) new_system
      [in_headers [] false; in_complete OverLimit] = Some s ∧
    count is_encodeHeaders (calls (world s)) +
      count is_continueDecoding (calls (world s)) ≤ 1.
Proof.
  eexists. split; [vm_compute; reflexivity|].
  match goal with
  | |- count _ (calls (world ?s)) + _ ≤ _ =>
      refine (proj1 (request_is_answered_or_resumed (sample_config true)
                       sample_callbacks (sample_client None) s _))
  end.
  exists new_system, [in_headers [] false; in_complete OverLimit].
  split; [repeat split; reflexivity|vm_compute; reflexivity].
Defined.

(** X18: a request in which [cancel] was called is over without a verdict:
    the stream is closed, the phase is still [Calling], no call is
    outstanding any more, [complete] has not run, no response was sent and
    the chain was not resumed; and [cancel] was called once. *)
Theorem cancelled_request_never_completes config_ callbacks_ client_ s :
  reachable config_ callbacks_ client_ s →
  cancel ∈ calls (world s) →
  count is_cancel (calls (world s)) = 1 ∧
  stream_open s = false ∧
  state_ (filter s) = Calling ∧
  outstanding (world s) = false ∧
  completions (world s) = 0 ∧
  count is_encodeHeaders (calls (world s)) = 0 ∧
  count is_continueDecoding (calls (world s)) = 0.
Proof.
  intros Hreach Hin.
  destruct (reachable_Inv _ _ _ _ Hreach)
    as (_ & Hl & _ & Ho & Hcont & Henc & Hcan & _).
  assert (Hpos : 1 ≤ count is_cancel (calls (world s))).
  { clear -Hin. unfold count. induction (calls (world s)) as [|c cs IH].
    - now apply elem_of_nil in Hin.
    - apply elem_of_cons in Hin as [<-|Hin]; cbn; [lia|].
      specialize (IH Hin). destruct (is_cancel c); cbn; lia. }
  destruct (stream_open s) eqn:Hopen; [lia|].
  destruct (state_ (filter s)) eqn:Hst; cbn in Hcan; try lia.
  unfold completions. rewrite Hl. cbn in *.
  repeat split; try lia.
  destruct (outstanding (world s)); [|reflexivity].
  destruct (Ho eq_refl) as [_ H]. discriminate.
Qed.

Lemma cancelled_request_never_completes_witness :
  ∃ s,
    run (sample_config true) sample_callbacks (sample_client None) new_system
      [in_headers [] false; in_data false; in_reset] = Some s ∧
    completions (world s) = 0 ∧ stream_open s = false.
Proof.
  eexists. split; [vm_compute; reflexivity|].
  match goal with
  | |- completions (world ?s) = _ ∧ _ =>
      destruct (cancelled_request_never_completes (sample_config true)
                  sample_callbacks (sample_client None) s)
        as (_ & Hopen & _ & _ & Hcompl & _)
  end.
  - exists new_system, [in_headers [] false; in_data false; in_reset].
    split; [repeat split; reflexivity|vm_compute; reflexivity].
  - apply elem_of_cons. right. apply elem_of_cons. now left.
  - split; [exact Hcompl|exact Hopen].
Defined.

(** X19: a completion delivered for the outstanding call of a request is
    handled without fault exactly when the registry knew the cluster of the
    request's route: then the handler leaves no call outstanding, has run
    once, and the phase is [Responded] for an enforced over-limit verdict
    and [Complete] otherwise; when the registry did not know the cluster,
    the handler faults for every status. *)
Theorem pending_completion_needs_cluster config_ callbacks_ client_ s :
  reachable config_ callbacks_ client_ s →
  outstanding (world s) = true →
  ∃ route_entry,
    route callbacks_ ≫= routeEntry = Some route_entry ∧
    ∀ status,
      match cm_get config_ (clusterName (info route_entry)) with
      | Some _ =>
          ∃ s', step config_ callbacks_ client_ s (in_complete status) = Some s' ∧
                outstanding (world s') = false ∧
                completions (world s') = 1 ∧
                state_ (filter s') =
                  (if enforced config_ status (world s) then Responded else Complete)
      | None =>
          step config_ callbacks_ client_ s (in_complete status) = None ∧
          complete config_ status (filter s) (world s) = Fault NullDereference
      end.
Proof.
  intros Hreach Hout.
  destruct (reachable_Inv _ _ _ _ Hreach) as (_ & Hl & _ & Ho & _).
  destruct (reachable_Inv2 _ _ _ _ Hreach) as (_ & _ & _ & _ & Hcl).
  destruct (Ho Hout) as [Hst _].
  destruct Hcl as (route_entry & Hroute & Hcluster); [rewrite Hst; discriminate|].
  exists route_entry. split; [exact Hroute|]. intros status.
  unfold step. cbn [enabled handle]. rewrite Hout.
  erewrite bind_Done by reflexivity.
  destruct (cm_get config_ (clusterName (info route_entry))) as [c|].
  - destruct (complete_resolved config_ status (filter s)
                (w_outstanding false (world s)) c Hcluster)
      as (f2 & w2 & -> & _ & _ & Ho2 & _ & Hst2 & Hl2 & _).
    eexists. split; [reflexivity|]. cbn [filter world].
    split; [exact Ho2|]. split; [|exact Hst2].
    unfold completions. rewrite Hl2. cbn [state_log w_outstanding].
    rewrite Hl, Hst. destruct (enforced _ _ _); reflexivity.
  - rewrite !complete_null by assumption. split; reflexivity.
Qed.

Lemma pending_completion_needs_cluster_witness :
  ∃ s,
    run (sample_config false) sample_callbacks (sample_client None) new_system
      [in_headers [] false] = Some s ∧
    step (sample_config false) sample_callbacks (sample_client None) s
      (in_complete OK) = None.
Proof.
  eexists. split; [vm_compute; reflexivity|].
  match goal with
  | |- step _ _ _ ?s _ = _ =>
      destruct (pending_completion_needs_cluster (sample_config false)
                  sample_callbacks (sample_client None) s)
        as (route_entry & Hroute & Hall)
  end.
  - exists new_system, [in_headers [] false].
    split; [repeat split; reflexivity|vm_compute; reflexivity].
  - reflexivity.
  - injection Hroute as <-. exact (proj1 (Hall OK)).
Defined.

(** X20: whatever response a request is sent by the filter, it is the 429
    template of line 23, a single status header with the value 429, and it
    ends the stream: the filter never sends a body nor any other header. *)
Theorem every_response_is_the_429_template config_ callbacks_ client_ s headers
    end_stream :
  reachable config_ callbacks_ client_ s →
  encodeHeaders headers end_stream ∈ calls (world s) →
  headers = [(":status", "429")] ∧ end_stream = true ∧
  state_ (filter s) = Responded.
Proof.
  intros Hreach Hin.
  destruct (reachable_Inv _ _ _ _ Hreach) as (_ & _ & _ & _ & _ & Henc & _).
  destruct (reachable_Inv2 _ _ _ _ Hreach) as (_ & _ & _ & Hall & _).
  rewrite Forall_forall in Hall. destruct (Hall _ Hin) as [-> ->].
  split; [reflexivity|]. split; [reflexivity|].
  assert (Hpos : 1 ≤ count is_encodeHeaders (calls (world s))).
  { clear -Hin. unfold count. induction (calls (world s)) as [|c cs IH].
    - now apply elem_of_nil in Hin.
    - apply elem_of_cons in Hin as [<-|Hin]; cbn; [lia|].
      specialize (IH Hin). destruct (is_encodeHeaders c); cbn; lia. }
  rewrite Henc in Hpos. destruct (state_ (filter s)); cbn in Hpos; try lia.
  reflexivity.
Qed.

Lemma every_response_is_the_429_template_witness :
  ∃ s,
    run (sample_config true) sample_callbacks (sample_client (Some OverLimit))
      new_system [in_headers [] false; in_reset] = Some s ∧
    state_ (filter s) = Responded.
Proof.
  eexists. split; [vm_compute; reflexivity|].
  match goal with
  | |- state_ (filter ?s) = _ =>
      refine (proj2 (proj2 (every_response_is_the_429_template (sample_config true)
                sample_callbacks (sample_client (Some OverLimit)) s
                TOO_MANY_REQUESTS_HEADER true _ _)))
  end.
  - exists new_system, [in_headers [] false; in_reset].
    split; [repeat split; reflexivity|vm_compute; reflexivity].
  - cbn [calls world]. do 2 (apply elem_of_cons; right).
    apply elem_of_cons. now left.
Defined.
